(** * Mobile replay segment scheduler ([MobileReplayer])

    A shallow embedding of the segment lookup [findSegmentIndex] and of the
    [MobileReplayer] playback state machine, with the properties of the
    timeline engine stated against it.

    Conventions of the embedding:
    - timestamps, durations, offsets and indices are JavaScript numbers that
      hold integral milliseconds / positions; they are modelled as [Z];
    - [video.currentTime] (seconds) and playback rates are modelled as exact
      rationals [Q];
    - reading a JavaScript array outside its bounds yields [undefined]; this
      is [js_index], which returns [None];
    - a thrown exception is the [Throw] completion;
    - the player runs on a single-threaded event loop. An operation of the
      model is one task of that loop: the synchronous part of a call together
      with the [async] continuations that are ready when it returns (they run
      as microtasks, before any other event is handled). A continuation that
      waits for the timer is kept, as data, with the timer's pending
      notifications and runs in the task of the timer pass that fires it;
    - the [loadedmetadata] listener only calls the [onLoaded] callback and is
      left out. *)

From Stdlib Require Import ZArith QArith String Lia Bool.
From stdpp Require Import base list.

Local Open Scope Z_scope.

(** ** Data model *)

Record MobileAttachment := mkAttachment {
  duration : Z;
  timestamp : Z;
  uri : string
}.

Inductive JsError := TypeError | RangeError.

Inductive Completion (A : Type) :=
| Normal (a : A)
| Throw (e : JsError).
Arguments Normal {A} a.
Arguments Throw {A} e.

(** [arr[i]] for a number [i]: [undefined] outside [0 .. length-1]. *)
Definition js_index {A} (arr : list A) (i : Z) : option A :=
  if i <? 0 then None else arr !! Z.to_nat i.

(** ** Segment lookup *)

(** What one activation of [findSegmentIndex] does: it either returns (or
    throws), or makes one recursive call on new bounds. *)
Inductive Probe :=
| Return (c : Completion Z)
| Recurse (start' end' : Z).

Definition findSegmentIndex_body (trackList : list (Z * Z))
    (segments : list MobileAttachment) (targetTimestamp start end_ : Z) : Probe :=
  if start >? end_ then Return (Normal end_)
  else
    let mid := (start + end_) / 2 in
    match js_index trackList mid with
    | None => Return (Throw TypeError)      (* destructuring [undefined] *)
    | Some (ts, index) =>
      let segment := js_index segments index in
      let narrow :=
        if targetTimestamp >? ts then Recurse (mid + 1) end_
        else Recurse start (mid - 1) in
      if targetTimestamp >=? ts then
        match segment with
        | None => Return (Throw TypeError)  (* [segment.duration] on [undefined] *)
        | Some seg =>
          if targetTimestamp <=? ts + duration seg then Return (Normal index)
          else narrow
        end
      else narrow
    end.

(** The recursion, bounded by a number of activations; [None] means the
    bound was reached before the function returned. *)
Fixpoint findSegmentIndex_fuel (fuel : nat) (trackList : list (Z * Z))
    (segments : list MobileAttachment) (targetTimestamp start end_ : Z)
    : option (Completion Z) :=
  match fuel with
  | O => None
  | S fuel' =>
    match findSegmentIndex_body trackList segments targetTimestamp start end_ with
    | Return c => Some c
    | Recurse start' end' =>
      findSegmentIndex_fuel fuel' trackList segments targetTimestamp start' end'
    end
  end.

(** Activations that always suffice for the bounds [start, end_]. *)
Definition enough_fuel (start end_ : Z) : nat := S (Z.to_nat (end_ - start + 1)).

(** The function itself. The [RangeError] (call stack exhausted) branch is
    never taken: see [findSegmentIndex_fuel_enough]. *)
Definition findSegmentIndex (trackList : list (Z * Z))
    (segments : list MobileAttachment) (targetTimestamp start end_ : Z)
    : Completion Z :=
  match findSegmentIndex_fuel (enough_fuel start end_) trackList segments
          targetTimestamp start end_ with
  | Some c => c
  | None => Throw RangeError
  end.

(** [attachments.map(({timestamp}, i) => [timestamp, i])] *)
Definition mkTrackList (attachments : list MobileAttachment) : list (Z * Z) :=
  imap (fun i a => (timestamp a, Z.of_nat i)) attachments.

(** Input invariants of the segment list (section 3 of the design): sorted
    ascending by start, consecutive segments do not overlap, durations are
    lengths. *)
Fixpoint sortedByStart (l : list MobileAttachment) : bool :=
  match l with
  | a :: (b :: _) as tl => (timestamp a <=? timestamp b) && sortedByStart tl
  | _ => true
  end.

Fixpoint nonOverlapping (l : list MobileAttachment) : bool :=
  match l with
  | a :: (b :: _) as tl =>
      (timestamp a + duration a <=? timestamp b) && nonOverlapping tl
  | _ => true
  end.

Definition nonNegDurations (l : list MobileAttachment) : bool :=
  forallb (fun a => 0 <=? duration a) l.

(** [target ∈ [seg.start, seg.start + seg.duration]] *)
Definition contains (seg : MobileAttachment) (target : Z) : bool :=
  (target >=? timestamp seg) && (target <=? timestamp seg + duration seg).

(** The contract's fallback, written as a linear scan: the index of the last
    segment whose start is at most [target], [-1] when there is none. *)
Fixpoint latestStartLe_from (i : Z) (acc : Z) (l : list MobileAttachment)
    (target : Z) : Z :=
  match l with
  | [] => acc
  | a :: tl =>
    latestStartLe_from (i + 1) (if timestamp a <=? target then i else acc) tl target
  end.

Definition latestStartLe (l : list MobileAttachment) (target : Z) : Z :=
  latestStartLe_from 0 (-1) l target.

(** ** Media handles *)

Inductive Display := DisplayNone | DisplayBlock.

(** The part of an [HTMLVideoElement] the player reads or writes. A handle
    (a reference to an element) is its position in the store [_videos]. *)
Record Video := mkVideo {
  src : string;
  display : Display;        (* [style.display] *)
  currentTime : Q;          (* seek position, seconds *)
  playbackRate : Q;
  paused : bool             (* set by [pause()], cleared by [play()] *)
}.

Definition set_display (d : Display) (v : Video) : Video :=
  mkVideo (src v) d (currentTime v) (playbackRate v) (paused v).
Definition set_currentTime (t : Q) (v : Video) : Video :=
  mkVideo (src v) (display v) t (playbackRate v) (paused v).
Definition set_playbackRate (r : Q) (v : Video) : Video :=
  mkVideo (src v) (display v) (currentTime v) r (paused v).
Definition set_paused (b : bool) (v : Video) : Video :=
  mkVideo (src v) (display v) (currentTime v) (playbackRate v) b.

(** ** Suspended computations

    [loadSegment] may suspend on a promise that a timer notification
    resolves. What runs after it is one of the call sites that await it. *)
Inductive Kont :=
| KDrop                      (* constructor, [pause]: the result is unused *)
| KPlaySegmentAtIndex        (* rest of [playSegmentAtIndex] *)
| KPlaySegmentAtTime         (* rest of [playSegmentAtTime] *)
| KLoadSegmentAtTime (previousSegmentIndex videoOffsetMs : Z) (k : Kont).
                             (* rest of [loadSegmentAtTime] after its first load *)

(** A registered notification: resume [loadSegment index {segmentOffsetMs}]
    after its wait, then continue with [k]. *)
Record Wake := mkWake {
  wake_index : Z;
  wake_segmentOffsetMs : Z;
  wake_k : Kont
}.

(** ** Virtual Timer *)

(** Modelled from the spec: the class [Timer] of [sentry/utils/replays/timer]
    is imported by the player; its source lies outside the files verified
    here. Section
    4.2: [start(at)] sets the current time and marks the timer running;
    [stop(at)] freezes it at the given offset (at the current time when no
    offset is given) and keeps the pending wake-ups; [getTime()] reads the
    current time; [addNotificationAtTime] registers a one-shot wake-up; while
    running, the run loop advances the time and fires, once, each wake-up
    whose target has been reached. *)
Record Timer := mkTimer {
  time : Z;
  running : bool;
  pending : list (Z * Wake)
}.

(** Modelled from the spec: [new Timer()], stopped at time 0 with nothing
    pending. *)
Definition newTimer : Timer := mkTimer 0 false [].

(** Modelled from the spec: [Timer.start(atOffsetMs)]. *)
Definition timer_start (t : Timer) (atOffsetMs : Z) : Timer :=
  mkTimer atOffsetMs true (pending t).

(** Modelled from the spec: [Timer.stop(atOffsetMs)]; [stop()] keeps the
    current time. *)
Definition timer_stop (t : Timer) (atOffsetMs : option Z) : Timer :=
  mkTimer (default (time t) atOffsetMs) false (pending t).

(** Modelled from the spec: [Timer.getTime()]. *)
Definition timer_getTime (t : Timer) : Z := time t.

(** Modelled from the spec: [Timer.addNotificationAtTime(targetMs, callback)]. *)
Definition timer_addNotificationAtTime (t : Timer) (targetMs : Z) (w : Wake) : Timer :=
  mkTimer (time t) (running t) (pending t ++ [(targetMs, w)]).

(** Modelled from the spec: one pass of the timer's run loop after [dt] more
    milliseconds (nothing happens while stopped): the new timer and the
    wake-ups that are due. *)
Definition timer_advance (t : Timer) (dt : Z) : Timer * list Wake :=
  if running t then
    let now := time t + Z.max 0 dt in
    (mkTimer now true (filter (fun p => ~ (p.1 <= now)) (pending t)),
     (filter (fun p => p.1 <= now) (pending t)).*2)
  else (t, []).

(** ** Player state *)

Record MobileReplayer := mkReplayer {
  _attachments : list MobileAttachment;
  _currentIndex : option Z;
  _playbackSpeed : Q;
  _startTimestamp : Z;
  _timer : Timer;
  _trackList : list (Z * Z);
  _videos : list Video;
  (* effects visible from outside *)
  onFinishedCalls : nat;          (* calls of [_callbacks.onFinished] *)
  unhandledRejections : list JsError;  (* rejected promises nobody awaits *)
  consoleErrors : nat             (* calls of [console.error] *)
}.

Definition set_currentIndex (i : option Z) (p : MobileReplayer) : MobileReplayer :=
  mkReplayer (_attachments p) i (_playbackSpeed p) (_startTimestamp p) (_timer p)
    (_trackList p) (_videos p) (onFinishedCalls p) (unhandledRejections p)
    (consoleErrors p).
Definition set_playbackSpeed (s : Q) (p : MobileReplayer) : MobileReplayer :=
  mkReplayer (_attachments p) (_currentIndex p) s (_startTimestamp p) (_timer p)
    (_trackList p) (_videos p) (onFinishedCalls p) (unhandledRejections p)
    (consoleErrors p).
Definition set_timer (t : Timer) (p : MobileReplayer) : MobileReplayer :=
  mkReplayer (_attachments p) (_currentIndex p) (_playbackSpeed p)
    (_startTimestamp p) t (_trackList p) (_videos p) (onFinishedCalls p)
    (unhandledRejections p) (consoleErrors p).
Definition set_videos (vs : list Video) (p : MobileReplayer) : MobileReplayer :=
  mkReplayer (_attachments p) (_currentIndex p) (_playbackSpeed p)
    (_startTimestamp p) (_timer p) (_trackList p) vs (onFinishedCalls p)
    (unhandledRejections p) (consoleErrors p).
Definition call_onFinished (p : MobileReplayer) : MobileReplayer :=
  mkReplayer (_attachments p) (_currentIndex p) (_playbackSpeed p)
    (_startTimestamp p) (_timer p) (_trackList p) (_videos p)
    (S (onFinishedCalls p)) (unhandledRejections p) (consoleErrors p).
Definition unhandledRejection (e : JsError) (p : MobileReplayer) : MobileReplayer :=
  mkReplayer (_attachments p) (_currentIndex p) (_playbackSpeed p)
    (_startTimestamp p) (_timer p) (_trackList p) (_videos p)
    (onFinishedCalls p) (e :: unhandledRejections p) (consoleErrors p).
Definition console_error (p : MobileReplayer) : MobileReplayer :=
  mkReplayer (_attachments p) (_currentIndex p) (_playbackSpeed p)
    (_startTimestamp p) (_timer p) (_trackList p) (_videos p)
    (onFinishedCalls p) (unhandledRejections p) (S (consoleErrors p)).

(** Apply [f] to the element behind a handle. *)
Definition with_video (h : nat) (f : Video -> Video) (p : MobileReplayer)
    : MobileReplayer :=
  set_videos (alter f h (_videos p)) p.

(** ** Player operations *)

(** The state of the promise an [async] function returned, once the
    synchronous part of the call and the continuations that were ready have
    run. [loadSegment] never rejects. *)
Inductive Promise (A : Type) :=
| Resolved (a : A)
| Pending.
Arguments Resolved {A} a.
Arguments Pending {A}.

Definition createVideo (playbackSpeed : Q) (segmentData : MobileAttachment) : Video :=
  mkVideo (uri segmentData) DisplayNone 0%Q playbackSpeed true.

(** The result of [getSegmentIndexForTime]. *)
Record SegmentLookup := mkLookup {
  previousSegment : option Z;
  segment : option Z
}.

Definition getSegment (p : MobileReplayer) (index : option Z) : option MobileAttachment :=
  match index with
  | None => None
  | Some i => js_index (_attachments p) i
  end.

Definition getVideo (p : MobileReplayer) (index : option Z) : option nat :=
  match index with
  | None => None
  | Some i => if (0 <=? i) && (i <? Z.of_nat (length (_videos p)))
              then Some (Z.to_nat i) else None
  end.

Definition getSegmentIndexForTime (p : MobileReplayer) (relativeOffsetMs : Z)
    : Completion SegmentLookup :=
  let timestamp_ := _startTimestamp p + relativeOffsetMs in
  match findSegmentIndex (_trackList p) (_attachments p) timestamp_ 0
          (Z.of_nat (length (_trackList p)) - 1) with
  | Throw e => Throw e
  | Normal result =>
    match getSegment p (Some result) with
    | None => Throw TypeError             (* [resultSegment.timestamp] on [undefined] *)
    | Some resultSegment =>
      let isExactSegment :=
        (timestamp_ >=? timestamp resultSegment) &&
        (timestamp_ <=? timestamp resultSegment + duration resultSegment) in
      Normal (mkLookup (if negb isExactSegment then Some result else None)
                       (if isExactSegment then Some result else None))
    end
  end.

Definition hideVideo (p : MobileReplayer) (index : option Z) : MobileReplayer :=
  match getVideo p index with
  | None => p
  | Some video => with_video video (set_display DisplayNone) p
  end.

Definition showVideo (p : MobileReplayer) (video : option nat) : MobileReplayer :=
  match video with
  | None => p
  | Some video => with_video video (set_display DisplayBlock) p
  end.

Definition playVideo (p : MobileReplayer) (video : option nat) : MobileReplayer :=
  match video with
  | None => p
  | Some video =>
    with_video video (fun v => set_paused false (set_playbackRate (_playbackSpeed p) v)) p
  end.

Definition setVideoTime (p : MobileReplayer) (video : nat) (timeMs : Z) : MobileReplayer :=
  with_video video (set_currentTime (timeMs # 1000)) p.

(** [loadSegment] from the hiding of the previous video to its [return]:
    what runs when no wait is needed, or once the wait is over. *)
Definition loadSegment_show (p : MobileReplayer) (index segmentOffsetMs : Z)
    : MobileReplayer * Z :=
  let previousIndex := index - 1 in
  let p1 := if previousIndex >=? 0 then hideVideo p (Some previousIndex) else p in
  let p2 := hideVideo p1 (_currentIndex p1) in
  let nextVideo := getVideo p2 (Some index) in
  let p3 := showVideo p2 nextVideo in
  match nextVideo with
  | Some video =>
    let p4 := setVideoTime p3 video segmentOffsetMs in
    (set_currentIndex (Some index) p4, index)
  | None => (console_error p3, -1)
  end.

(** [loadSegment(index, {segmentOffsetMs})], awaited by [k]. *)
Definition loadSegment (p : MobileReplayer) (index : option Z) (segmentOffsetMs : Z)
    (k : Kont) : MobileReplayer * Promise Z :=
  match index with
  | None => (p, Resolved (-1))
  | Some i =>
    if (i <? 0) || (i >=? Z.of_nat (length (_attachments p))) then (p, Resolved (-1))
    else
      let now := timer_getTime (_timer p) in
      match getSegment p index with
      | None => (p, Resolved (-1))
      | Some currentSegment =>
        let currentSegmentOffset := timestamp currentSegment - _startTimestamp p in
        if now <? currentSegmentOffset then
          (set_timer (timer_addNotificationAtTime (_timer p) currentSegmentOffset
                        (mkWake i segmentOffsetMs k)) p,
           Pending)
        else
          let '(p', r) := loadSegment_show p i segmentOffsetMs in
          (p', Resolved r)
      end
  end.

(** [loadSegmentAtTime] from [const segment = this.getSegment(nextSegmentIndex)]
    on; [ret] is what the caller does with the result. *)
Definition loadSegmentAtTime_rest (ret : MobileReplayer -> option Z -> MobileReplayer)
    (p : MobileReplayer) (nextSegmentIndex : option Z) (videoOffsetMs : Z) (k : Kont)
    : MobileReplayer :=
  match getSegment p nextSegmentIndex with
  | None => ret p None
  | Some segment_ =>
    let segmentOffsetMs := (_startTimestamp p + videoOffsetMs) - timestamp segment_ in
    match loadSegment p nextSegmentIndex segmentOffsetMs k with
    | (p', Resolved r) => ret p' (Some r)
    | (p', Pending) => p'
    end
  end.

(** Run the code that awaited a promise now resolved with [r]. *)
Fixpoint runK (k : Kont) (p : MobileReplayer) (r : option Z) : MobileReplayer :=
  match k with
  | KDrop => p
  | KPlaySegmentAtIndex | KPlaySegmentAtTime =>
    match r with
    | None => p
    | Some loadedSegmentIndex => playVideo p (getVideo p (Some loadedSegmentIndex))
    end
  | KLoadSegmentAtTime previousSegmentIndex videoOffsetMs k' =>
    loadSegmentAtTime_rest (runK k') p (Some (previousSegmentIndex + 1)) videoOffsetMs k'
  end.

(** [await] on the promise of a call that has just been made. *)
Definition await (call : MobileReplayer * Promise Z) (k : Kont) : MobileReplayer :=
  match call with
  | (p, Resolved r) => runK k p (Some r)
  | (p, Pending) => p
  end.

Definition playSegmentAtIndex (p : MobileReplayer) (index : option Z) : MobileReplayer :=
  await (loadSegment p index 0 KPlaySegmentAtIndex) KPlaySegmentAtIndex.

Definition handleSegmentEnd (p : MobileReplayer) (index : Z) : MobileReplayer :=
  let nextIndex := index + 1 in
  if nextIndex >=? Z.of_nat (length (_attachments p)) then
    call_onFinished (set_timer (timer_stop (_timer p) None) p)
  else playSegmentAtIndex p (Some nextIndex).

(** [loadSegmentAtTime(videoOffsetMs)], awaited by [k]. An exception thrown
    in it rejects its promise; neither [playSegmentAtTime] nor [pause]
    handles the rejection. *)
Definition loadSegmentAtTime (p : MobileReplayer) (videoOffsetMs : Z) (k : Kont)
    : MobileReplayer :=
  match getSegmentIndexForTime p videoOffsetMs with
  | Throw e => unhandledRejection e p
  | Normal (mkLookup previousSegmentIndex segmentIndex) =>
    match segmentIndex, previousSegmentIndex with
    | None, Some previousSegmentIndex =>
      match getSegment p (Some previousSegmentIndex) with
      | None => unhandledRejection TypeError p   (* [previousSegment.duration] *)
      | Some previousSegment_ =>
        let k1 := KLoadSegmentAtTime previousSegmentIndex videoOffsetMs k in
        await (loadSegment p (Some previousSegmentIndex) (duration previousSegment_) k1) k1
      end
    | _, _ => loadSegmentAtTime_rest (runK k) p segmentIndex videoOffsetMs k
    end
  end.

Definition playSegmentAtTime (p : MobileReplayer) (videoOffsetMs : Z) : MobileReplayer :=
  loadSegmentAtTime p videoOffsetMs KPlaySegmentAtTime.

Definition getCurrentTime (p : MobileReplayer) : Z :=
  match _currentIndex p with
  | None => 0
  | Some _ => timer_getTime (_timer p)
  end.

Definition play (p : MobileReplayer) (videoOffsetMs : Z) : MobileReplayer :=
  playSegmentAtTime (set_timer (timer_start (_timer p) videoOffsetMs) p) videoOffsetMs.

Definition pause (p : MobileReplayer) (videoOffsetMs : Z) : MobileReplayer :=
  let p1 := match getVideo p (_currentIndex p) with
            | None => p
            | Some currentVideo => with_video currentVideo (set_paused true) p
            end in
  let p2 := set_timer (timer_stop (_timer p1) (Some videoOffsetMs)) p1 in
  loadSegmentAtTime p2 videoOffsetMs KDrop.

Definition setConfig (p : MobileReplayer) (speed : option Q) : MobileReplayer :=
  match speed with
  | None => p
  | Some speed =>
    let p1 := set_playbackSpeed speed p in
    match getVideo p1 (_currentIndex p1) with
    | None => p1
    | Some currentVideo => with_video currentVideo (set_playbackRate (_playbackSpeed p1)) p1
    end
  end.

(** The fields as the constructor sets them, before its [loadSegment(0)]. *)
Definition initial (attachments : list MobileAttachment) (start : Z) : MobileReplayer :=
  mkReplayer attachments None 1%Q start newTimer (mkTrackList attachments)
    (map (createVideo 1%Q) attachments) 0 [] 0.

Definition construct (attachments : list MobileAttachment) (start : Z) : MobileReplayer :=
  await (loadSegment (initial attachments start) (Some 0) 0 KDrop) KDrop.

(** A fired notification resolves the promise [loadSegment] waits on. *)
Definition wake (p : MobileReplayer) (w : Wake) : MobileReplayer :=
  let '(p', r) := loadSegment_show p (wake_index w) (wake_segmentOffsetMs w) in
  runK (wake_k w) p' (Some r).

(** One pass of the timer's run loop, [dt] milliseconds later. *)
Definition timerStep (p : MobileReplayer) (dt : Z) : MobileReplayer :=
  let '(t', due) := timer_advance (_timer p) dt in
  foldl wake (set_timer t' p) due.

(** What can happen to a player: its public operations, the [ended] event of
    a handle, and the passing of time. *)
Inductive Event :=
| EPlay (videoOffsetMs : Z)
| EPause (videoOffsetMs : Z)
| ESetConfig (speed : option Q)
| EEnded (index : Z)
| ETick (dt : Z).

Definition step (p : MobileReplayer) (e : Event) : MobileReplayer :=
  match e with
  | EPlay o => play p o
  | EPause o => pause p o
  | ESetConfig s => setConfig p s
  | EEnded i => handleSegmentEnd p i
  | ETick dt => timerStep p dt
  end.

Definition run (p : MobileReplayer) (es : list Event) : MobileReplayer :=
  foldl step p es.

(** Exactly zero or one handle is shown, and a shown one is the active one. *)
Definition shown_only_active (p : MobileReplayer) : Prop :=
  forall (h : nat) (v : Video),
    _videos p !! h = Some v -> display v = DisplayBlock ->
    _currentIndex p = Some (Z.of_nat h).

(** [handleSegmentEnd] read as "the next segment plays at once": after the
    call the next segment is the active one and its handle is shown, at
    position 0, playing at the current speed. *)
Definition shows_and_plays (p : MobileReplayer) (index : Z) (at_ : Q) : Prop :=
  _currentIndex p = Some index /\
  exists v, _videos p !! Z.to_nat index = Some v /\
    display v = DisplayBlock /\ currentTime v = at_ /\
    paused v = false /\ playbackRate v = _playbackSpeed p.

(** What the constructor establishes and every operation keeps. *)
Definition wf_player (p : MobileReplayer) : Prop :=
  length (_videos p) = length (_attachments p) /\
  _trackList p = mkTrackList (_attachments p).

Definition all_hidden (p : MobileReplayer) : Prop :=
  forall (h : nat) (v : Video), _videos p !! h = Some v -> display v = DisplayNone.

(** [p'] differs from [p] at most in its handles' state, its active index
    and its pending wake-ups. *)
Definition same_session (p p' : MobileReplayer) : Prop :=
  _attachments p' = _attachments p /\
  _startTimestamp p' = _startTimestamp p /\
  _trackList p' = _trackList p /\
  _playbackSpeed p' = _playbackSpeed p /\
  time (_timer p') = time (_timer p) /\
  running (_timer p') = running (_timer p) /\
  onFinishedCalls p' = onFinishedCalls p /\
  length (_videos p') = length (_videos p).

(** Whether the code that awaits ends by calling [playVideo]. *)
Fixpoint kont_plays (k : Kont) : bool :=
  match k with
  | KDrop => false
  | KPlaySegmentAtIndex | KPlaySegmentAtTime => true
  | KLoadSegmentAtTime _ _ k' => kont_plays k'
  end.

(** An [ended] event that finds no next segment. *)
Definition finishes (segments : nat) (e : Event) : bool :=
  match e with
  | EEnded index => index + 1 >=? Z.of_nat segments
  | _ => false
  end.

Fixpoint finishing_events (segments : nat) (es : list Event) : nat :=
  match es with
  | [] => 0%nat
  | e :: es' =>
    ((if finishes segments e then 1 else 0) + finishing_events segments es')%nat
  end.

(** * Properties of the lookup *)

Lemma js_index_Some {A} (l : list A) (i : Z) (x : A) :
  js_index l i = Some x <-> 0 <= i /\ l !! Z.to_nat i = Some x.
Proof.
  unfold js_index. destruct (Z.ltb_spec i 0); split; intros H'.
  - discriminate.
  - lia.
  - split; [lia | done].
  - tauto.
Qed.

Lemma js_index_in_range {A} (l : list A) (i : Z) :
  0 <= i < Z.of_nat (length l) -> exists x, js_index l i = Some x.
Proof.
  intros Hi. destruct (lookup_lt_is_Some_2 l (Z.to_nat i)) as [x Hx]; [lia|].
  exists x. apply js_index_Some. split; [lia | done].
Qed.

Section Lookup.

Variable segs : list MobileAttachment.
Variable target : Z.

Lemma js_index_mkTrackList (m : Z) (a : MobileAttachment) :
  0 <= m -> segs !! Z.to_nat m = Some a ->
  js_index (mkTrackList segs) m = Some (timestamp a, m).
Proof.
  intros Hm Ha. apply js_index_Some. split; [done|].
  unfold mkTrackList. rewrite list_lookup_imap, Ha. simpl.
  by rewrite Z2Nat.id.
Qed.

Lemma length_mkTrackList : length (mkTrackList segs) = length segs.
Proof. unfold mkTrackList. apply length_imap. Qed.

(** One probe on the track list the constructor builds. *)
Lemma body_mkTrackList (s e : Z) :
  0 <= s -> s <= e -> e < Z.of_nat (length segs) ->
  exists a, segs !! Z.to_nat ((s + e) / 2) = Some a /\
    findSegmentIndex_body (mkTrackList segs) segs target s e =
      if contains a target then Return (Normal ((s + e) / 2))
      else if target >? timestamp a then Recurse ((s + e) / 2 + 1) e
      else Recurse s ((s + e) / 2 - 1).
Proof.
  intros Hs Hse He.
  assert (Hmid : s <= (s + e) / 2 <= e).
  { split; [apply Z.div_le_lower_bound | apply Z.div_le_upper_bound]; lia. }
  destruct (lookup_lt_is_Some_2 segs (Z.to_nat ((s + e) / 2))) as [a Ha];
    [lia|].
  exists a. split; [done|].
  unfold findSegmentIndex_body.
  destruct (Z.gtb_spec s e); [lia|].
  rewrite (js_index_mkTrackList _ a) by (done || lia).
  assert (js_index segs ((s + e) / 2) = Some a) as ->.
  { apply js_index_Some. split; [lia | done]. }
  unfold contains.
  destruct (target >=? timestamp a); simpl; [|done].
  by destruct (target <=? timestamp a + duration a).
Qed.

End Lookup.

Lemma sortedByStart_lookup (l : list MobileAttachment) (i j : nat) (a b : MobileAttachment) :
  sortedByStart l = true -> (i <= j)%nat ->
  l !! i = Some a -> l !! j = Some b -> timestamp a <= timestamp b.
Proof.
  revert i j a b. induction l as [|x l IH]; intros i j a b Hs Hij Ha Hb; [done|].
  assert (Htl : sortedByStart l = true).
  { destruct l; [done|]. simpl in Hs. by apply andb_true_iff in Hs as [_ ?]. }
  assert (Hhd : forall k c, l !! k = Some c -> timestamp x <= timestamp c).
  { intros k c Hc. destruct l as [|y l']; [done|].
    simpl in Hs. apply andb_true_iff in Hs as [Hxy _]. apply Z.leb_le in Hxy.
    etransitivity; [exact Hxy|].
    apply (IH 0%nat k y c); [done | lia | done | done]. }
  destruct i as [|i], j as [|j]; simpl in *.
  - simplify_eq. lia.
  - simplify_eq. eauto.
  - lia.
  - apply (IH i j); [done | lia | done | done].
Qed.

Lemma nonOverlapping_lookup (l : list MobileAttachment) (i j : nat) (a b : MobileAttachment) :
  sortedByStart l = true -> nonOverlapping l = true -> (i < j)%nat ->
  l !! i = Some a -> l !! j = Some b -> timestamp a + duration a <= timestamp b.
Proof.
  revert i j a b. induction l as [|x l IH]; intros i j a b Hs Hn Hij Ha Hb; [done|].
  assert (Htl : sortedByStart l = true /\ nonOverlapping l = true).
  { destruct l; [done|]. simpl in Hs, Hn.
    apply andb_true_iff in Hs as [_ ?]. by apply andb_true_iff in Hn as [_ ?]. }
  destruct Htl as [Hs' Hn'].
  destruct i as [|i], j as [|j]; simpl in *; try lia.
  - simplify_eq. destruct l as [|y l']; [done|].
    simpl in Hn. apply andb_true_iff in Hn as [Hxy _]. apply Z.leb_le in Hxy.
    etransitivity; [exact Hxy|].
    apply (sortedByStart_lookup (y :: l') 0 j y b); [done | lia | done | done].
  - apply (IH i j); [done | done | lia | done | done].
Qed.

Lemma nonNegDurations_lookup (l : list MobileAttachment) (i : nat) (a : MobileAttachment) :
  nonNegDurations l = true -> l !! i = Some a -> 0 <= duration a.
Proof.
  unfold nonNegDurations. rewrite forallb_forall. intros H Ha.
  apply Z.leb_le, H, list_elem_of_In, list_elem_of_lookup. eauto.
Qed.

(** ** Termination *)

Lemma findSegmentIndex_body_shrinks tl segs target s e s' e' :
  findSegmentIndex_body tl segs target s e = Recurse s' e' ->
  s <= e /\ s <= s' /\ e' <= e /\ 0 <= e' - s' + 1 <= (e - s + 1) / 2.
Proof.
  unfold findSegmentIndex_body. intros H.
  destruct (Z.gtb_spec s e); [discriminate|].
  assert (Hmid : s <= (s + e) / 2 <= e).
  { split; [apply Z.div_le_lower_bound | apply Z.div_le_upper_bound]; lia. }
  assert (Hhalf : 0 <= e - (s + e) / 2 <= (e - s + 1) / 2 /\
                  0 <= (s + e) / 2 - s <= (e - s + 1) / 2).
  { pose proof (Z.div_mod (s + e) 2 ltac:(lia)).
    pose proof (Z.mod_pos_bound (s + e) 2 ltac:(lia)).
    pose proof (Z.div_mod (e - s + 1) 2 ltac:(lia)).
    pose proof (Z.mod_pos_bound (e - s + 1) 2 ltac:(lia)). lia. }
  assert (Hn : forall t : Z,
    (if target >? t then Recurse ((s + e) / 2 + 1) e
     else Recurse s ((s + e) / 2 - 1)) = Recurse s' e' ->
    s <= e /\ s <= s' /\ e' <= e /\ 0 <= e' - s' + 1 <= (e - s + 1) / 2).
  { intros t Ht. destruct (target >? t); simplify_eq; lia. }
  destruct (js_index tl ((s + e) / 2)) as [[ts index]|]; [|discriminate].
  destruct (target >=? ts); [|by eapply Hn].
  destruct (js_index segs index) as [seg|]; [|discriminate].
  destruct (target <=? ts + duration seg); [discriminate | by eapply Hn].
Qed.

Lemma findSegmentIndex_fuel_enough tl segs target fuel s e :
  (Z.to_nat (e - s + 1) < fuel)%nat ->
  exists c, findSegmentIndex_fuel fuel tl segs target s e = Some c.
Proof.
  revert s e. induction fuel as [|fuel IH]; intros s e Hf; [lia|]. simpl.
  destruct (findSegmentIndex_body tl segs target s e) as [c|s' e'] eqn:Hb; [eauto|].
  apply findSegmentIndex_body_shrinks in Hb.
  apply IH.
  assert ((e - s + 1) / 2 < e - s + 1) by (apply Z.div_lt; lia). lia.
Qed.

(** The interval at least halves at each call, so the depth is logarithmic. *)
Lemma findSegmentIndex_fuel_log tl segs target (k : nat) s e :
  e - s + 1 < 2 ^ Z.of_nat k ->
  exists c, findSegmentIndex_fuel (S k) tl segs target s e = Some c.
Proof.
  revert s e. induction k as [|k IH]; intros s e Hk; simpl.
  - destruct (findSegmentIndex_body tl segs target s e) as [c|s' e'] eqn:Hb; [eauto|].
    apply findSegmentIndex_body_shrinks in Hb. simpl in Hk. lia.
  - destruct (findSegmentIndex_body tl segs target s e) as [c|s' e'] eqn:Hb; [eauto|].
    apply findSegmentIndex_body_shrinks in Hb. apply IH.
    rewrite Nat2Z.inj_succ, Z.pow_succ_r in Hk by lia.
    assert ((e - s + 1) / 2 < 2 ^ Z.of_nat k) by (apply Z.div_lt_upper_bound; lia).
    lia.
Qed.

Lemma findSegmentIndex_fuel_mono tl segs target fuel fuel' s e c :
  findSegmentIndex_fuel fuel tl segs target s e = Some c -> (fuel <= fuel')%nat ->
  findSegmentIndex_fuel fuel' tl segs target s e = Some c.
Proof.
  revert fuel' s e. induction fuel as [|fuel IH]; intros fuel' s e H Hle; [done|].
  destruct fuel' as [|fuel']; [lia|]. simpl in *.
  destruct (findSegmentIndex_body tl segs target s e); [done|].
  apply IH; [done | lia].
Qed.

Lemma findSegmentIndex_eq_fuel tl segs target fuel s e c :
  findSegmentIndex_fuel fuel tl segs target s e = Some c ->
  findSegmentIndex tl segs target s e = c.
Proof.
  intros H. unfold findSegmentIndex.
  destruct (findSegmentIndex_fuel_enough tl segs target (enough_fuel s e) s e) as [c' Hc'];
    [unfold enough_fuel; lia|].
  rewrite Hc'.
  destruct (Nat.le_ge_cases fuel (enough_fuel s e)) as [Hle|Hle].
  - rewrite (findSegmentIndex_fuel_mono _ _ _ _ _ _ _ _ H Hle) in Hc'. congruence.
  - rewrite (findSegmentIndex_fuel_mono _ _ _ _ _ _ _ _ Hc' Hle) in H. congruence.
Qed.

(** The search never throws when every track entry in the bounds names an
    existing segment: it ends on a containment hit at a probed entry, or on
    the [end] of an interval that has become empty. *)
Lemma findSegmentIndex_normal_fuel (tl : list (Z * Z)) (segs : list MobileAttachment)
    (target : Z) (fuel : nat) (s e : Z) :
  0 <= s -> e < Z.of_nat (length tl) ->
  (forall m ts index, s <= m <= e -> js_index tl m = Some (ts, index) ->
     is_Some (js_index segs index)) ->
  (Z.to_nat (e - s + 1) < fuel)%nat ->
  exists r,
    findSegmentIndex_fuel fuel tl segs target s e = Some (Normal r) /\
    ((exists m ts seg, s <= m <= e /\ js_index tl m = Some (ts, r) /\
        js_index segs r = Some seg /\ ts <= target <= ts + duration seg) \/
     (Z.min (s - 1) e <= r <= e)).
Proof.
  revert s e. induction fuel as [|fuel IH]; intros s e Hs He Hvalid Hf; [lia|].
  simpl. unfold findSegmentIndex_body.
  destruct (Z.gtb_spec s e) as [Hgt|Hle].
  { exists e. split; [done|]. right. lia. }
  assert (Hmid : s <= (s + e) / 2 <= e).
  { split; [apply Z.div_le_lower_bound | apply Z.div_le_upper_bound]; lia. }
  set (mid := (s + e) / 2) in *.
  assert (Hin : 0 <= mid < Z.of_nat (length tl)) by lia.
  destruct (js_index_in_range tl mid Hin) as [[ts index] Hentry].
  rewrite Hentry.
  destruct (Hvalid mid ts index Hmid Hentry) as [seg Hseg]. rewrite Hseg.
  assert (Hrec : forall s' e', s <= s' -> e' <= e ->
    ((s' = mid + 1 /\ e' = e) \/ (s' = s /\ e' = mid - 1)) ->
    exists r,
      findSegmentIndex_fuel fuel tl segs target s' e' = Some (Normal r) /\
      ((exists m ts0 seg0, s <= m <= e /\ js_index tl m = Some (ts0, r) /\
          js_index segs r = Some seg0 /\ ts0 <= target <= ts0 + duration seg0) \/
       (Z.min (s - 1) e <= r <= e))).
  { intros s' e' Hs' He' Hside.
    destruct (IH s' e') as (r & Hr & Hcase); [lia..| |lia|].
    - intros m ts0 index0 Hm. apply Hvalid. lia.
    - exists r. split; [done|].
      destruct Hcase as [(m & ts0 & seg0 & Hm & Hrest)|Hrange].
      + left. exists m, ts0, seg0. split; [lia | done].
      + right. lia. }
  assert (Hnarrow :
    exists r,
      match (if target >? ts then Recurse (mid + 1) e else Recurse s (mid - 1)) with
      | Return c => Some c
      | Recurse s' e' => findSegmentIndex_fuel fuel tl segs target s' e'
      end = Some (Normal r) /\
      ((exists m ts0 seg0, s <= m <= e /\ js_index tl m = Some (ts0, r) /\
          js_index segs r = Some seg0 /\ ts0 <= target <= ts0 + duration seg0) \/
       (Z.min (s - 1) e <= r <= e))).
  { destruct (target >? ts); apply Hrec; lia. }
  destruct (Z.geb_spec target ts) as [Hge|Hlt]; [|exact Hnarrow].
  destruct (Z.leb_spec target (ts + duration seg)) as [Hhit|Hout]; [|exact Hnarrow].
  exists index. split; [done|]. left. exists mid, ts, seg. repeat split; try done; lia.
Qed.

(** C9, as the code has it. [findSegmentIndex] terminates for every track
    list, segment list, target and bounds with [0 <= start] and
    [end < length trackList]: every recursive call is made on bounds that
    stay inside the track list and span a strictly smaller interval (at most
    half of it), so the recursion returns within [end - start + 2]
    activations, and within [k + 1] of them when the interval holds fewer
    than [2^k] entries. It ends on a containment hit or on the
    [start > end] base case whenever every track entry in the bounds names an
    existing segment, as every entry of the constructor's track list does. *)
Theorem findSegmentIndex_terminates (trackList : list (Z * Z))
    (segments : list MobileAttachment) (targetTimestamp start end_ : Z) :
  0 <= start -> end_ < Z.of_nat (length trackList) ->
  (exists c, findSegmentIndex_fuel (enough_fuel start end_) trackList segments
               targetTimestamp start end_ = Some c /\
             findSegmentIndex trackList segments targetTimestamp start end_ = c) /\
  (forall start' end',
     findSegmentIndex_body trackList segments targetTimestamp start end_
       = Recurse start' end' ->
     0 <= start' /\ end' < Z.of_nat (length trackList) /\
     0 <= end' - start' + 1 < end_ - start + 1) /\
  (forall k : nat, end_ - start + 1 < 2 ^ Z.of_nat k ->
     exists c, findSegmentIndex_fuel (S k) trackList segments
                 targetTimestamp start end_ = Some c) /\
  ((forall m ts index, start <= m <= end_ ->
      js_index trackList m = Some (ts, index) -> is_Some (js_index segments index)) ->
   exists r,
     findSegmentIndex trackList segments targetTimestamp start end_ = Normal r /\
     ((exists m ts seg, start <= m <= end_ /\ js_index trackList m = Some (ts, r) /\
         js_index segments r = Some seg /\
         ts <= targetTimestamp <= ts + duration seg) \/
      (Z.min (start - 1) end_ <= r <= end_))).
Proof.
  intros Hs He. split; [|split; [|split]].
  - destruct (findSegmentIndex_fuel_enough trackList segments targetTimestamp
                (enough_fuel start end_) start end_) as [c Hc];
      [unfold enough_fuel; lia|].
    exists c. split; [done|]. by eapply findSegmentIndex_eq_fuel.
  - intros s' e' Hb. apply findSegmentIndex_body_shrinks in Hb.
    assert ((end_ - start + 1) / 2 < end_ - start + 1) by (apply Z.div_lt; lia).
    lia.
  - intros k Hk. by apply findSegmentIndex_fuel_log.
  - intros Hvalid.
    destruct (findSegmentIndex_normal_fuel trackList segments targetTimestamp
                (enough_fuel start end_) start end_ Hs He Hvalid)
      as (r & Hr & Hcase); [unfold enough_fuel; lia|].
    exists r. split; [by eapply findSegmentIndex_eq_fuel | done].
Qed.

Lemma findSegmentIndex_terminates_witness :
  (exists c, findSegmentIndex_fuel (enough_fuel 0 2) [(0, 0); (1500, 1); (3000, 2)]
               [mkAttachment 1000 0 "a"; mkAttachment 1000 1500 "b";
                mkAttachment 500 3000 "c"] 1200 0 2 = Some c) /\
  (exists r, findSegmentIndex [(0, 0); (1500, 1); (3000, 2)]
               [mkAttachment 1000 0 "a"; mkAttachment 1000 1500 "b";
                mkAttachment 500 3000 "c"] 1200 0 2 = Normal r).
Proof.
  destruct (findSegmentIndex_terminates [(0, 0); (1500, 1); (3000, 2)]
              [mkAttachment 1000 0 "a"; mkAttachment 1000 1500 "b";
               mkAttachment 500 3000 "c"] 1200 0 2) as ([c [Hc _]] & _ & _ & Hnormal).
  - lia.
  - simpl. lia.
  - split; [exists c; exact Hc|].
    destruct Hnormal as (r & Hr & _).
    + intros m ts index Hm Hentry.
      assert (m = 0 \/ m = 1 \/ m = 2) as [->|[->| ->]] by lia;
        simpl in Hentry; injection Hentry as <- <-; simpl; eexists; reflexivity.
    + exists r. exact Hr.
Defined.

(** C9, as stated, fails on a track list whose entry names no segment: the
    bounds satisfy the hypotheses, the probe of entry 0 reads
    [segment.duration] on [undefined], and the call ends by a [TypeError],
    neither on a containment hit nor on the base case. *)
Lemma findSegmentIndex_dangling_track_entry :
  0 <= 0 /\ 0 < Z.of_nat (length [(0, 5)]) /\
  findSegmentIndex [(0, 5)] [mkAttachment 10 0 "a"] 10 0 0 = Throw TypeError /\
  ~ exists r, findSegmentIndex [(0, 5)] [mkAttachment 10 0 "a"] 10 0 0 = Normal r.
Proof.
  split; [lia|]. split; [simpl; lia|]. split; [reflexivity|].
  intros [r Hr]. vm_compute in Hr. discriminate.
Qed.

(** ** Lookup of a contained target *)

Section Contained.

Variable segs : list MobileAttachment.
Variable target : Z.
Hypothesis Hsorted : sortedByStart segs = true.
Hypothesis Hdisjoint : nonOverlapping segs = true.

Variable i : nat.
Variable seg : MobileAttachment.
Hypothesis Hseg : segs !! i = Some seg.
Hypothesis Hinside : timestamp seg < target < timestamp seg + duration seg.

Lemma findSegmentIndex_inside_fuel (fuel : nat) (s e : Z) :
  0 <= s -> s <= Z.of_nat i <= e -> e < Z.of_nat (length segs) ->
  (Z.to_nat (e - s + 1) < fuel)%nat ->
  findSegmentIndex_fuel fuel (mkTrackList segs) segs target s e
    = Some (Normal (Z.of_nat i)).
Proof using Hsorted Hdisjoint Hseg Hinside.
  revert s e. induction fuel as [|fuel IH]; intros s e Hs Hi He Hf; [lia|].
  simpl.
  destruct (body_mkTrackList segs target s e) as (a & Ha & ->); [lia..|].
  set (mid := (s + e) / 2) in *.
  assert (Hmid : s <= mid <= e).
  { subst mid. split; [apply Z.div_le_lower_bound | apply Z.div_le_upper_bound]; lia. }
  destruct (Z.lt_trichotomy mid (Z.of_nat i)) as [Hlt|[Heq|Hgt]].
  - (* probe before [i]: its segment ends before [seg] starts *)
    pose proof (nonOverlapping_lookup segs (Z.to_nat mid) i a seg
                  Hsorted Hdisjoint ltac:(lia) Ha Hseg).
    pose proof (sortedByStart_lookup segs (Z.to_nat mid) i a seg
                  Hsorted ltac:(lia) Ha Hseg).
    unfold contains.
    destruct (Z.leb_spec target (timestamp a + duration a)); [lia|].
    rewrite andb_false_r.
    destruct (Z.gtb_spec target (timestamp a)); [|lia].
    apply IH; lia.
  - (* probe on [i] *)
    assert (a = seg) as -> by (rewrite Heq, Nat2Z.id in Ha; congruence).
    unfold contains.
    destruct (Z.geb_spec target (timestamp seg)); [|lia].
    destruct (Z.leb_spec target (timestamp seg + duration seg)); [|lia].
    simpl. by rewrite Heq.
  - (* probe after [i]: its segment starts after [seg] ends *)
    pose proof (nonOverlapping_lookup segs i (Z.to_nat mid) seg a
                  Hsorted Hdisjoint ltac:(lia) Hseg Ha).
    unfold contains.
    destruct (Z.geb_spec target (timestamp a)); [lia|]. simpl.
    destruct (Z.gtb_spec target (timestamp a)); [lia|].
    apply IH; lia.
Qed.

End Contained.

Lemma findSegmentIndex_inside_full (segs : list MobileAttachment) (target : Z)
    (i : nat) (seg : MobileAttachment) :
  sortedByStart segs = true -> nonOverlapping segs = true ->
  segs !! i = Some seg ->
  timestamp seg < target < timestamp seg + duration seg ->
  findSegmentIndex (mkTrackList segs) segs target 0 (Z.of_nat (length segs) - 1)
    = Normal (Z.of_nat i).
Proof.
  intros Hs Hd Hseg Hin.
  apply lookup_lt_Some in Hseg as Hlt.
  eapply findSegmentIndex_eq_fuel.
  apply (findSegmentIndex_inside_fuel segs target Hs Hd i seg Hseg Hin
           (enough_fuel 0 (Z.of_nat (length segs) - 1))); unfold enough_fuel; lia.
Qed.

(** C1. On a segment list sorted by start whose segments do not overlap, a
    target strictly inside segment [i] is resolved to [i] by
    [findSegmentIndex] called over the full bounds [0, n-1]. *)
Theorem findSegmentIndex_inside (segs : list MobileAttachment) (target : Z)
    (i : nat) (seg : MobileAttachment) :
  sortedByStart segs = true -> nonOverlapping segs = true ->
  segs !! i = Some seg ->
  timestamp seg < target < timestamp seg + duration seg ->
  findSegmentIndex (mkTrackList segs) segs target 0 (Z.of_nat (length segs) - 1)
    = Normal (Z.of_nat i).
Proof. apply findSegmentIndex_inside_full. Qed.

Lemma findSegmentIndex_inside_witness :
  findSegmentIndex
    (mkTrackList [mkAttachment 1000 0 "a"; mkAttachment 1000 1500 "b";
                  mkAttachment 500 3000 "c"])
    [mkAttachment 1000 0 "a"; mkAttachment 1000 1500 "b"; mkAttachment 500 3000 "c"]
    1700 0 2 = Normal 1.
Proof.
  apply (findSegmentIndex_inside
           [mkAttachment 1000 0 "a"; mkAttachment 1000 1500 "b";
            mkAttachment 500 3000 "c"] 1700 1 (mkAttachment 1000 1500 "b")).
  - reflexivity.
  - reflexivity.
  - reflexivity.
  - simpl. lia.
Defined.

(** ** Lookup of a target no segment contains *)

Lemma latestStartLe_from_none (l : list MobileAttachment) (target i acc : Z) :
  (forall j a, l !! j = Some a -> target < timestamp a) ->
  latestStartLe_from i acc l target = acc.
Proof.
  revert i acc. induction l as [|x l IH]; intros i acc H; [done|]. simpl.
  pose proof (H 0%nat x eq_refl).
  destruct (Z.leb_spec (timestamp x) target); [lia|].
  apply IH. intros j a Hj. apply (H (S j) a Hj).
Qed.

Lemma latestStartLe_from_prefix (l : list MobileAttachment) (target i acc r : Z) :
  (forall (j : nat) a, l !! j = Some a ->
     (timestamp a <= target <-> i + Z.of_nat j <= r)) ->
  i <= r < i + Z.of_nat (length l) ->
  latestStartLe_from i acc l target = r.
Proof.
  revert i acc. induction l as [|x l IH]; intros i acc H Hr; simpl in *; [lia|].
  pose proof (H 0%nat x eq_refl) as H0.
  destruct (Z.leb_spec (timestamp x) target); [|lia].
  destruct (Z.eq_dec r i) as [->|Hne].
  - apply latestStartLe_from_none. intros j a Hj.
    pose proof (H (S j) a Hj). lia.
  - apply IH; [|lia]. intros j a Hj. pose proof (H (S j) a Hj). lia.
Qed.

(** The scan agrees with any index that splits the list into starts at most
    [target] and starts above it. *)
Lemma latestStartLe_unique (l : list MobileAttachment) (target r : Z) :
  -1 <= r < Z.of_nat (length l) ->
  (forall (j : nat) a, l !! j = Some a -> Z.of_nat j <= r -> timestamp a <= target) ->
  (forall (j : nat) a, l !! j = Some a -> r < Z.of_nat j -> target < timestamp a) ->
  latestStartLe l target = r.
Proof.
  intros Hr Hle Hgt. unfold latestStartLe.
  destruct (Z.eq_dec r (-1)) as [->|Hne].
  - apply latestStartLe_from_none. intros j a Hj. apply (Hgt j a Hj). lia.
  - apply latestStartLe_from_prefix; [|lia].
    intros j a Hj. split; intros H.
    + destruct (Z.le_gt_cases (Z.of_nat j) r); [lia|].
      pose proof (Hgt j a Hj ltac:(lia)). lia.
    + apply (Hle j a Hj). lia.
Qed.

Section NotContained.

Variable segs : list MobileAttachment.
Variable target : Z.
Hypothesis Hsorted : sortedByStart segs = true.
Hypothesis Hlen : nonNegDurations segs = true.
Hypothesis Hnone : forall (j : nat) a, segs !! j = Some a -> contains a target = false.

Lemma findSegmentIndex_gap_fuel (fuel : nat) (s e : Z) :
  0 <= s -> s <= e + 1 -> e < Z.of_nat (length segs) ->
  (forall (j : nat) a, segs !! j = Some a -> Z.of_nat j < s -> timestamp a <= target) ->
  (forall (j : nat) a, segs !! j = Some a -> e < Z.of_nat j -> target < timestamp a) ->
  (Z.to_nat (e - s + 1) < fuel)%nat ->
  findSegmentIndex_fuel fuel (mkTrackList segs) segs target s e
    = Some (Normal (latestStartLe segs target)).
Proof using Hsorted Hlen Hnone.
  revert s e. induction fuel as [|fuel IH]; intros s e Hs Hse He Hlo Hhi Hf; [lia|].
  simpl. destruct (Z.eq_dec s (e + 1)) as [->|Hne].
  - (* empty interval: [end] is returned *)
    unfold findSegmentIndex_body. destruct (Z.gtb_spec (e + 1) e); [|lia].
    f_equal. f_equal. symmetry. apply latestStartLe_unique; [lia| |done].
    intros j a Hj Hje. apply (Hlo j a Hj). lia.
  - destruct (body_mkTrackList segs target s e) as (a & Ha & ->); [lia..|].
    set (mid := (s + e) / 2) in *.
    assert (Hmid : s <= mid <= e).
    { subst mid. split; [apply Z.div_le_lower_bound | apply Z.div_le_upper_bound]; lia. }
    rewrite (Hnone _ a Ha).
    pose proof (Hnone _ a Ha) as Hc. unfold contains in Hc.
    pose proof (nonNegDurations_lookup segs _ a Hlen Ha) as Hdur.
    destruct (Z.gtb_spec target (timestamp a)) as [Hgt|Hle].
    + apply IH; [lia..| |done|lia].
      intros j b Hj Hjs.
      pose proof (sortedByStart_lookup segs j (Z.to_nat mid) b a
                    Hsorted ltac:(lia) Hj Ha). lia.
    + assert (target < timestamp a).
      { destruct (Z.geb_spec target (timestamp a));
          destruct (Z.leb_spec target (timestamp a + duration a));
          simpl in Hc; try discriminate; lia. }
      apply IH; [lia..|done| |lia].
      intros j b Hj Hjs.
      pose proof (sortedByStart_lookup segs (Z.to_nat mid) j a b
                    Hsorted ltac:(lia) Ha Hj). lia.
Qed.

End NotContained.



(** C2. On a segment list sorted by start (with durations that are lengths),
    a target that no segment's [start, start + duration] contains is resolved
    to the index of the latest segment whose start is at most the target:
    [i] for a target in the gap between segments [i] and [i+1], and [-1], one
    below the first index, when the target precedes every start. *)
Theorem findSegmentIndex_not_contained (segs : list MobileAttachment) (target : Z) :
  sortedByStart segs = true -> nonNegDurations segs = true ->
  (forall (j : nat) a, segs !! j = Some a -> contains a target = false) ->
  let result :=
    findSegmentIndex (mkTrackList segs) segs target 0 (Z.of_nat (length segs) - 1) in
  result = Normal (latestStartLe segs target) /\
  (forall (i : nat) a b, segs !! i = Some a -> segs !! S i = Some b ->
     timestamp a + duration a < target < timestamp b ->
     result = Normal (Z.of_nat i)) /\
  ((forall (j : nat) a, segs !! j = Some a -> target < timestamp a) ->
   result = Normal (-1)).
Proof.
  intros Hs Hl Hnone result.
  assert (Hres : result = Normal (latestStartLe segs target)).
  { subst result. eapply findSegmentIndex_eq_fuel.
    apply (findSegmentIndex_gap_fuel segs target Hs Hl Hnone
             (enough_fuel 0 (Z.of_nat (length segs) - 1)));
      try (unfold enough_fuel; lia).
    intros j a Hj Hlt. apply lookup_lt_Some in Hj. lia. }
  split; [done|]. split.
  - intros i a b Ha Hb Hgap. rewrite Hres. f_equal.
    apply lookup_lt_Some in Ha as Hlt.
    apply latestStartLe_unique; [lia| |].
    + intros j c Hj Hji.
      pose proof (sortedByStart_lookup segs j i c a Hs ltac:(lia) Hj Ha).
      pose proof (nonNegDurations_lookup segs i a Hl Ha). lia.
    + intros j c Hj Hij.
      pose proof (sortedByStart_lookup segs (S i) j b c Hs ltac:(lia) Hb Hj). lia.
  - intros Hall. rewrite Hres. f_equal. unfold latestStartLe.
    by apply latestStartLe_from_none.
Qed.

Lemma findSegmentIndex_not_contained_witness :
  findSegmentIndex
    (mkTrackList [mkAttachment 1000 0 "a"; mkAttachment 1000 1500 "b";
                  mkAttachment 500 3000 "c"])
    [mkAttachment 1000 0 "a"; mkAttachment 1000 1500 "b"; mkAttachment 500 3000 "c"]
    1200 0 2 = Normal 0.
Proof.
  refine (proj1 (findSegmentIndex_not_contained
           [mkAttachment 1000 0 "a"; mkAttachment 1000 1500 "b";
            mkAttachment 500 3000 "c"] 1200 _ _ _)).
  - reflexivity.
  - reflexivity.
  - intros [|[|[|j]]] a Hj; simpl in Hj; try discriminate;
      injection Hj as <-; reflexivity.
Defined.

(** The hypothesis on durations is used: a segment of negative length does
    not contain its own start, and the search then passes below it. *)
Remark findSegmentIndex_negative_duration :
  findSegmentIndex (mkTrackList [mkAttachment (-1) 5 "a"]) [mkAttachment (-1) 5 "a"] 5 0 0
    = Normal (-1) /\
  latestStartLe [mkAttachment (-1) 5 "a"] 5 = 0.
Proof. split; reflexivity. Qed.

(** * Properties of the player *)

(** ** [getSegmentIndexForTime] *)

(** C10. When the lookup for [relativeOffsetMs] resolves to an index inside
    the segment list, [getSegmentIndexForTime] returns a record in which
    exactly one of [segment] and [previousSegment] is defined: [segment]
    holds the index when the absolute timestamp lies in that segment's
    [timestamp, timestamp + duration], [previousSegment] holds it otherwise. *)
Theorem getSegmentIndexForTime_exactly_one (p : MobileReplayer)
    (relativeOffsetMs result : Z) :
  findSegmentIndex (_trackList p) (_attachments p)
    (_startTimestamp p + relativeOffsetMs) 0
    (Z.of_nat (length (_trackList p)) - 1) = Normal result ->
  0 <= result < Z.of_nat (length (_attachments p)) ->
  exists seg, _attachments p !! Z.to_nat result = Some seg /\
    getSegmentIndexForTime p relativeOffsetMs =
      Normal (if contains seg (_startTimestamp p + relativeOffsetMs)
              then {| segment := Some result; previousSegment := None |}
              else {| segment := None; previousSegment := Some result |}).
Proof.
  intros Hfind Hr.
  destruct (js_index_in_range (_attachments p) result Hr) as [seg Hseg].
  exists seg. split; [by apply js_index_Some in Hseg as [_ ?]|].
  unfold getSegmentIndexForTime. rewrite Hfind. simpl. rewrite Hseg.
  unfold contains.
  by destruct (_ && _).
Qed.

Lemma getSegmentIndexForTime_exactly_one_witness :
  getSegmentIndexForTime
    (construct [mkAttachment 1000 0 "a"; mkAttachment 1000 1500 "b"] 0) 1200
  = Normal {| segment := None; previousSegment := Some 0 |}.
Proof.
  destruct (getSegmentIndexForTime_exactly_one
              (construct [mkAttachment 1000 0 "a"; mkAttachment 1000 1500 "b"] 0)
              1200 0) as (seg & Hseg & ->).
  - reflexivity.
  - simpl. lia.
  - simpl in Hseg. injection Hseg as <-. reflexivity.
Defined.

(** C5, evaluated where it fails. The first segment starts after the
    replay's origin; an offset before it resolves to index [-1], and the
    dereference of [getSegment(-1)] throws. The exception rejects the promise
    of [loadSegmentAtTime], which neither [pause] nor [play] handles. *)
Theorem getSegmentIndexForTime_throws_before_first :
  let p := construct [mkAttachment 500 1000 "a"] 0 in
  findSegmentIndex (_trackList p) (_attachments p) (_startTimestamp p + 200) 0
    (Z.of_nat (length (_trackList p)) - 1) = Normal (-1) /\
  getSegment p (Some (-1)) = None /\
  getSegmentIndexForTime p 200 = Throw TypeError /\
  unhandledRejections p = [] /\
  unhandledRejections (pause p 200) = [TypeError] /\
  unhandledRejections (play p 200) = [TypeError].
Proof. repeat split; reflexivity. Qed.

(** ** [loadSegment] *)

(** C6. [loadSegment] called with an index that is undefined, negative, or
    at least the number of segments returns [-1] and changes nothing: the
    player, with its handles, its active index and its timer, is the one it
    was called on. *)
Theorem loadSegment_invalid_index (p : MobileReplayer) (index : option Z)
    (segmentOffsetMs : Z) (k : Kont) :
  match index with
  | None => True
  | Some i => i < 0 \/ Z.of_nat (length (_attachments p)) <= i
  end ->
  loadSegment p index segmentOffsetMs k = (p, Resolved (-1)).
Proof.
  destruct index as [i|]; [|done]. intros Hi. unfold loadSegment.
  destruct (Z.ltb_spec i 0); [done|].
  destruct (Z.geb_spec i (Z.of_nat (length (_attachments p)))); [done|lia].
Qed.

Lemma loadSegment_invalid_index_witness :
  loadSegment (construct [mkAttachment 1000 0 "a"] 0) (Some 1) 0 KDrop
    = (construct [mkAttachment 1000 0 "a"] 0, Resolved (-1)) /\
  loadSegment (construct [mkAttachment 1000 0 "a"] 0) (Some (-1)) 0 KDrop
    = (construct [mkAttachment 1000 0 "a"] 0, Resolved (-1)) /\
  loadSegment (construct [mkAttachment 1000 0 "a"] 0) None 0 KDrop
    = (construct [mkAttachment 1000 0 "a"] 0, Resolved (-1)).
Proof.
  split; [|split].
  - apply (loadSegment_invalid_index _ (Some 1)). simpl. lia.
  - apply (loadSegment_invalid_index _ (Some (-1))). simpl. lia.
  - apply (loadSegment_invalid_index _ None). exact I.
Defined.

(** ** [setConfig] *)

Lemma fmap_alter_same {A B} (f : A -> B) (g : A -> A) (i : nat) (l : list A) :
  (forall x, f (g x) = f x) -> f <$> alter g i l = f <$> l.
Proof.
  intros Hfg. revert i. induction l as [|x l IH]; intros [|i]; simpl; [done..| |].
  - by rewrite Hfg.
  - f_equal. apply IH.
Qed.

Lemma getVideo_Some (p : MobileReplayer) (index : option Z) (h : nat) :
  getVideo p index = Some h <->
  exists i, index = Some i /\ 0 <= i /\ h = Z.to_nat i /\ (h < length (_videos p))%nat.
Proof.
  unfold getVideo. destruct index as [i|].
  - destruct (Z.leb_spec 0 i), (Z.ltb_spec i (Z.of_nat (length (_videos p)))); simpl;
      split; try discriminate.
    + intros [= <-]. exists i. repeat split; [done|lia].
    + intros (? & [= <-] & ? & -> & ?). done.
    + intros (? & [= <-] & ? & -> & ?). lia.
    + intros (? & [= <-] & ? & -> & ?). lia.
    + intros (? & [= <-] & ? & -> & ?). lia.
  - split; [done|]. by intros (? & ? & _).
Qed.

(** C7. [setConfig({speed: s})] stores [s] as the playback speed and sets the
    rate of the handle at the active index to [s], leaving that handle's
    source, visibility, seek position and paused flag as they were; every
    handle at another index is unchanged, and so are the timer, the active
    index, the segment list, the track list, the origin and the recorded
    callbacks and rejections. With [speed] undefined the call changes
    nothing. *)
Theorem setConfig_frame (p : MobileReplayer) (s : Q) :
  let p' := setConfig p (Some s) in
  _playbackSpeed p' = s /\
  (forall (i : Z) (v : Video),
     _currentIndex p = Some i -> 0 <= i -> _videos p !! Z.to_nat i = Some v ->
     _videos p' !! Z.to_nat i
       = Some (mkVideo (src v) (display v) (currentTime v) s (paused v))) /\
  (forall h : nat, _currentIndex p <> Some (Z.of_nat h) ->
     _videos p' !! h = _videos p !! h) /\
  (_currentIndex p = None -> _videos p' = _videos p) /\
  _timer p' = _timer p /\
  _currentIndex p' = _currentIndex p /\
  currentTime <$> _videos p' = currentTime <$> _videos p /\
  display <$> _videos p' = display <$> _videos p /\
  paused <$> _videos p' = paused <$> _videos p /\
  src <$> _videos p' = src <$> _videos p /\
  _attachments p' = _attachments p /\
  _trackList p' = _trackList p /\
  _startTimestamp p' = _startTimestamp p /\
  onFinishedCalls p' = onFinishedCalls p /\
  unhandledRejections p' = unhandledRejections p /\
  setConfig p None = p.
Proof.
  assert (E : setConfig p (Some s) =
    match getVideo p (_currentIndex p) with
    | Some h => with_video h (set_playbackRate s) (set_playbackSpeed s p)
    | None => set_playbackSpeed s p
    end) by reflexivity.
  cbv zeta. rewrite E. clear E.
  destruct (getVideo p (_currentIndex p)) as [h|] eqn:Hh; simpl.
  - apply getVideo_Some in Hh as (i0 & Hi & Hi0 & -> & Hlt).
    split; [done|]. split; [|split; [|split]].
    + intros i v Hc _ Hv. rewrite Hi in Hc. injection Hc as <-.
      by rewrite list_lookup_alter_eq, Hv.
    + intros h Hne. apply list_lookup_alter_ne. intros <-.
      apply Hne. rewrite Hi. f_equal. lia.
    + intros Hnone. congruence.
    + repeat split; by apply fmap_alter_same.
  - split; [done|]. split; [|by repeat split].
    intros i v Hc Hi0 Hv. exfalso.
    assert (getVideo p (_currentIndex p) = Some (Z.to_nat i)) as Hg; [|congruence].
    apply getVideo_Some. exists i. apply lookup_lt_Some in Hv. done.
Qed.

Lemma setConfig_frame_witness :
  let p := construct [mkAttachment 1000 0 "a"; mkAttachment 1000 1500 "b"] 0 in
  _playbackSpeed (setConfig p (Some (2 # 1))) = 2 # 1 /\
  _videos (setConfig p (Some (2 # 1))) !! 0%nat
    = Some (mkVideo "a" DisplayBlock (0 # 1000) (2 # 1) true) /\
  _videos (setConfig p (Some (2 # 1))) !! 1%nat
    = Some (mkVideo "b" DisplayNone 0 1 true).
Proof.
  intros p.
  destruct (setConfig_frame p (2 # 1)) as (Hspeed & Hrate & Hother & _).
  split; [exact Hspeed|]. split.
  - apply (Hrate 0 (mkVideo "a" DisplayBlock (0 # 1000) 1 true)).
    + reflexivity.
    + lia.
    + reflexivity.
  - rewrite (Hother 1%nat); [reflexivity|]. discriminate.
Defined.

(** ** What [loadSegment] does to the handles *)

Lemma same_session_refl (p : MobileReplayer) : same_session p p.
Proof. unfold same_session. done. Qed.

Lemma same_session_trans (p q r : MobileReplayer) :
  same_session p q -> same_session q r -> same_session p r.
Proof.
  unfold same_session.
  intros (? & ? & ? & ? & ? & ? & ? & ?) (? & ? & ? & ? & ? & ? & ? & ?).
  repeat split; congruence.
Qed.

Lemma same_session_with_video (h : nat) (f : Video -> Video) (p : MobileReplayer) :
  same_session p (with_video h f p).
Proof. unfold same_session. simpl. by rewrite length_alter. Qed.

Lemma same_session_set_currentIndex (i : option Z) (p : MobileReplayer) :
  same_session p (set_currentIndex i p).
Proof. unfold same_session. done. Qed.


Lemma hideVideo_frame (p : MobileReplayer) (index : option Z) :
  same_session p (hideVideo p index) /\
  _currentIndex (hideVideo p index) = _currentIndex p /\
  forall {B} (f : Video -> B),
    (forall d v, f (set_display d v) = f v) ->
    f <$> _videos (hideVideo p index) = f <$> _videos p.
Proof.
  unfold hideVideo, same_session. destruct (getVideo p index); simpl; [|done].
  repeat split; try done.
  - by rewrite length_alter.
  - intros B f Hf. by apply fmap_alter_same.
Qed.

Lemma getVideo_in_range (p : MobileReplayer) (i : Z) :
  0 <= i < Z.of_nat (length (_videos p)) -> getVideo p (Some i) = Some (Z.to_nat i).
Proof.
  intros Hi. unfold getVideo.
  destruct (Z.leb_spec 0 i); [|lia].
  destruct (Z.ltb_spec i (Z.of_nat (length (_videos p)))); [done|lia].
Qed.

Lemma fmap_length_eq {A B} (f : A -> B) (l l' : list A) :
  f <$> l = f <$> l' -> length l = length l'.
Proof. intros H. by rewrite <- (length_fmap f l), H, length_fmap. Qed.

(** With a valid index, [loadSegment_show] returns it, makes it the active
    index, shows its handle at the requested position, and leaves the timer,
    the paused flags and the rates alone. *)
Lemma loadSegment_show_spec (p : MobileReplayer) (index segmentOffsetMs : Z) :
  0 <= index < Z.of_nat (length (_videos p)) ->
  let p' := (loadSegment_show p index segmentOffsetMs).1 in
  (loadSegment_show p index segmentOffsetMs).2 = index /\
  same_session p p' /\
  _currentIndex p' = Some index /\
  paused <$> _videos p' = paused <$> _videos p /\
  playbackRate <$> _videos p' = playbackRate <$> _videos p /\
  exists v', _videos p' !! Z.to_nat index = Some v' /\
    display v' = DisplayBlock /\ currentTime v' = segmentOffsetMs # 1000.
Proof.
  intros Hi. unfold loadSegment_show.
  set (p1 := if index - 1 >=? 0 then hideVideo p (Some (index - 1)) else p).
  assert (H1 : same_session p p1 /\
               forall {B} (f : Video -> B), (forall d v, f (set_display d v) = f v) ->
                 f <$> _videos p1 = f <$> _videos p).
  { subst p1. destruct (index - 1 >=? 0).
    - destruct (hideVideo_frame p (Some (index - 1))) as (? & _ & ?). done.
    - unfold same_session. done. }
  destruct H1 as [Hs1 Hf1].
  destruct (hideVideo_frame p1 (_currentIndex p1)) as (Hs2 & _ & Hf2).
  set (p2 := hideVideo p1 (_currentIndex p1)) in *.
  assert (Hlen : length (_videos p2) = length (_videos p)).
  { etransitivity; eapply (fmap_length_eq paused); [by apply Hf2 | by apply Hf1]. }
  rewrite (getVideo_in_range p2) by lia. simpl.
  destruct (lookup_lt_is_Some_2 (_videos p2) (Z.to_nat index)) as [v2 Hv2]; [lia|].
  split; [done|]. split.
  { eapply same_session_trans; [exact Hs1|].
    eapply same_session_trans; [exact Hs2|].
    eapply same_session_trans; [apply (same_session_with_video (Z.to_nat index))|].
    eapply same_session_trans; [apply (same_session_with_video (Z.to_nat index))|].
    apply same_session_set_currentIndex. }
  split; [done|]. split; [|split].
  - rewrite !fmap_alter_same by done. rewrite Hf2 by done. by apply Hf1.
  - rewrite !fmap_alter_same by done. rewrite Hf2 by done. by apply Hf1.
  - rewrite !list_lookup_alter_eq, Hv2. simpl. eauto.
Qed.

Lemma hideVideo_timer (p : MobileReplayer) (index : option Z) :
  _timer (hideVideo p index) = _timer p.
Proof. unfold hideVideo. by destruct (getVideo p index). Qed.

Lemma loadSegment_show_timer (p : MobileReplayer) (index segmentOffsetMs : Z) :
  _timer (loadSegment_show p index segmentOffsetMs).1 = _timer p.
Proof.
  unfold loadSegment_show.
  set (p1 := if index - 1 >=? 0 then hideVideo p (Some (index - 1)) else p).
  assert (H1 : _timer p1 = _timer p).
  { subst p1. destruct (index - 1 >=? 0); [apply hideVideo_timer | done]. }
  pose proof (hideVideo_timer p1 (_currentIndex p1)) as H2.
  destruct (getVideo _ (Some index)); simpl; congruence.
Qed.

Lemma playVideo_timer (p : MobileReplayer) (video : option nat) :
  _timer (playVideo p video) = _timer p.
Proof. by destruct video. Qed.

(** A segment that is loaded and then played is shown, positioned, and
    playing at the current speed. *)
Lemma loadSegment_show_then_play (p : MobileReplayer) (index segmentOffsetMs : Z) :
  0 <= index < Z.of_nat (length (_videos p)) ->
  shows_and_plays
    (runK KPlaySegmentAtIndex (loadSegment_show p index segmentOffsetMs).1
       (Some (loadSegment_show p index segmentOffsetMs).2))
    index (segmentOffsetMs # 1000).
Proof.
  intros Hi.
  destruct (loadSegment_show_spec p index segmentOffsetMs Hi)
    as (-> & Hs & Hc & _ & _ & v' & Hv' & Hd & Ht).
  set (p' := (loadSegment_show p index segmentOffsetMs).1) in *.
  cbn [runK].
  rewrite (getVideo_in_range p') by (destruct Hs as (_&_&_&_&_&_&_&->); lia).
  unfold shows_and_plays. simpl. split; [done|].
  rewrite list_lookup_alter_eq, Hv'. simpl. eauto 10.
Qed.

(** ** Properties kept by every load *)

Lemma loadSegment_show_frame (p : MobileReplayer) (index segmentOffsetMs : Z) :
  let p' := (loadSegment_show p index segmentOffsetMs).1 in
  same_session p p' /\
  (is_Some (_currentIndex p) -> is_Some (_currentIndex p')) /\
  forall (B : Type) (f : Video -> B),
    (forall d v, f (set_display d v) = f v) ->
    (forall t v, f (set_currentTime t v) = f v) ->
    f <$> _videos p' = f <$> _videos p.
Proof.
  unfold loadSegment_show.
  set (p1 := if index - 1 >=? 0 then hideVideo p (Some (index - 1)) else p).
  assert (H1 : same_session p p1 /\ _currentIndex p1 = _currentIndex p /\
               forall {B} (f : Video -> B), (forall d v, f (set_display d v) = f v) ->
                 f <$> _videos p1 = f <$> _videos p).
  { subst p1. destruct (index - 1 >=? 0).
    - apply hideVideo_frame.
    - split; [apply same_session_refl | done]. }
  destruct H1 as (Hs1 & Hc1 & Hf1).
  destruct (hideVideo_frame p1 (_currentIndex p1)) as (Hs2 & Hc2 & Hf2).
  set (p2 := hideVideo p1 (_currentIndex p1)) in *.
  assert (Hs : same_session p p2) by (by eapply same_session_trans).
  destruct (getVideo p2 (Some index)) as [h|]; simpl.
  - split; [|split].
    + eapply same_session_trans; [exact Hs|].
      eapply same_session_trans; [apply (same_session_with_video h)|].
      eapply same_session_trans; [apply (same_session_with_video h)|].
      apply same_session_set_currentIndex.
    + done.
    + intros B f Hd Ht. rewrite !fmap_alter_same by done.
      rewrite Hf2 by done. by apply Hf1.
  - split; [|split].
    + eapply same_session_trans; [exact Hs|]. unfold same_session. done.
    + by rewrite Hc2, Hc1.
    + intros B f Hd Ht. rewrite Hf2 by done. by apply Hf1.
Qed.

Section Preserved.

Variable P : MobileReplayer -> Prop.
Variable may_play : bool.

Hypothesis P_show : forall p index segmentOffsetMs,
  P p -> P (loadSegment_show p index segmentOffsetMs).1.
Hypothesis P_wait : forall p targetMs w,
  P p -> P (set_timer (timer_addNotificationAtTime (_timer p) targetMs w) p).
Hypothesis P_play : may_play = true -> forall p video, P p -> P (playVideo p video).
Hypothesis P_reject : forall p e, P p -> P (unhandledRejection e p).

Lemma loadSegment_preserves p index segmentOffsetMs k :
  P p -> P (loadSegment p index segmentOffsetMs k).1.
Proof using P_show P_wait.
  intros Hp. unfold loadSegment. destruct index as [i|]; [|done].
  destruct (_ || _); [done|].
  destruct (getSegment p (Some i)); [|done].
  destruct (_ <? _); [by apply P_wait|].
  pose proof (P_show p i segmentOffsetMs Hp).
  by destruct (loadSegment_show p i segmentOffsetMs).
Qed.

Lemma loadSegmentAtTime_rest_preserves ret p next videoOffsetMs k :
  (forall q r, P q -> P (ret q r)) -> P p ->
  P (loadSegmentAtTime_rest ret p next videoOffsetMs k).
Proof using P_show P_wait.
  intros Hret Hp. unfold loadSegmentAtTime_rest.
  destruct (getSegment p next) as [seg|]; [|by apply Hret].
  pose proof (loadSegment_preserves p next
                (_startTimestamp p + videoOffsetMs - timestamp seg) k Hp) as H.
  destruct (loadSegment p next _ k) as [p' [r|]]; [by apply Hret | done].
Qed.

Lemma runK_preserves k p r :
  (kont_plays k = true -> may_play = true) -> P p -> P (runK k p r).
Proof using P_show P_wait P_play.
  revert p r. induction k as [| | |prev off k IH]; intros p r Hk Hp; simpl in *; [done|..].
  - destruct r; [by apply P_play; auto | done].
  - destruct r; [by apply P_play; auto | done].
  - apply loadSegmentAtTime_rest_preserves; [|done]. intros q r'. by apply IH.
Qed.

Lemma loadSegmentAtTime_preserves p videoOffsetMs k :
  (kont_plays k = true -> may_play = true) -> P p ->
  P (loadSegmentAtTime p videoOffsetMs k).
Proof using P_show P_wait P_play P_reject.
  intros Hk Hp. unfold loadSegmentAtTime.
  destruct (getSegmentIndexForTime p videoOffsetMs) as [[prev seg]|e];
    [|by apply P_reject].
  assert (Hrest : forall s, P (loadSegmentAtTime_rest (runK k) p s videoOffsetMs k)).
  { intros s. apply loadSegmentAtTime_rest_preserves; [|done].
    intros q r. by apply runK_preserves. }
  destruct seg as [s|]; [apply Hrest|].
  destruct prev as [pr|]; [|apply Hrest].
  destruct (getSegment p (Some pr)) as [a|]; [|by apply P_reject].
  pose proof (loadSegment_preserves p (Some pr) (duration a)
                (KLoadSegmentAtTime pr videoOffsetMs k) Hp) as H.
  destruct (loadSegment p (Some pr) (duration a) _) as [p' [r|]]; simpl; [|done].
  apply loadSegmentAtTime_rest_preserves; [|done].
  intros q r'. by apply runK_preserves.
Qed.

Lemma await_preserves call k :
  (kont_plays k = true -> may_play = true) -> P call.1 -> P (await call k).
Proof using P_show P_wait P_play.
  destruct call as [p [r|]]; simpl; [apply runK_preserves | done].
Qed.

Lemma wake_preserves p w :
  (kont_plays (wake_k w) = true -> may_play = true) -> P p -> P (wake p w).
Proof using P_show P_wait P_play.
  intros Hk Hp. unfold wake.
  pose proof (P_show p (wake_index w) (wake_segmentOffsetMs w) Hp).
  destruct (loadSegment_show p _ _). by apply runK_preserves.
Qed.

End Preserved.

(** A property that the elementary updates keep is kept by every operation,
    hence holds in every state reached from the constructor. *)
Section Invariant.

Variable P : MobileReplayer -> Prop.

Hypothesis I_show : forall p index segmentOffsetMs,
  P p -> P (loadSegment_show p index segmentOffsetMs).1.
Hypothesis I_timer : forall p t, P p -> P (set_timer t p).
Hypothesis I_handle : forall p h f,
  (forall v, display (f v) = display v) -> P p -> P (with_video h f p).
Hypothesis I_speed : forall p s, P p -> P (set_playbackSpeed s p).
Hypothesis I_finished : forall p, P p -> P (call_onFinished p).
Hypothesis I_reject : forall p e, P p -> P (unhandledRejection e p).

Lemma playVideo_invariant p video : P p -> P (playVideo p video).
Proof using I_handle. destruct video as [h|]; [|done]. by apply I_handle. Qed.

Lemma step_invariant p e : P p -> P (step p e).
Proof using I_show I_timer I_handle I_speed I_finished I_reject.
  intros Hp.
  assert (Hplay : true = true -> forall q video, P q -> P (playVideo q video))
    by (intros _; apply playVideo_invariant).
  assert (Hwait : forall q targetMs w,
            P q -> P (set_timer (timer_addNotificationAtTime (_timer q) targetMs w) q))
    by (intros; by apply I_timer).
  destruct e as [o|o|s|i|dt]; simpl.
  - apply (loadSegmentAtTime_preserves P true); auto.
  - apply (loadSegmentAtTime_preserves P true); auto. apply I_timer.
    destruct (getVideo p (_currentIndex p)); [by apply I_handle | done].
  - destruct s as [s|]; [|done]. unfold setConfig.
    destruct (getVideo _ _); [apply I_handle; [done|] |]; by apply I_speed.
  - unfold handleSegmentEnd. destruct (_ >=? _); [by apply I_finished, I_timer|].
    apply (await_preserves P true); auto.
    by apply (loadSegment_preserves P).
  - unfold timerStep. destruct (timer_advance (_timer p) dt) as [t' due].
    assert (Hq : P (set_timer t' p)) by (by apply I_timer).
    revert Hq. generalize (set_timer t' p).
    induction due as [|w due IH]; intros q Hq; simpl; [done|].
    apply IH. apply (wake_preserves P true); auto.
Qed.

Lemma run_invariant attachments start events :
  P (initial attachments start) -> P (run (construct attachments start) events).
Proof using I_show I_timer I_handle I_speed I_finished I_reject.
  intros H0.
  assert (Hc : P (construct attachments start)).
  { unfold construct.
    apply (await_preserves P false I_show);
      [intros; by apply I_timer | done | done |].
    apply (loadSegment_preserves P I_show); [intros; by apply I_timer | done]. }
  unfold run. revert Hc. generalize (construct attachments start).
  induction events as [|e events IH]; intros p Hp; simpl; [done|].
  by apply IH, step_invariant.
Qed.

End Invariant.




(** ** Visibility invariant *)

Lemma shown_only_active_ext (p p' : MobileReplayer) :
  _videos p' = _videos p -> _currentIndex p' = _currentIndex p ->
  shown_only_active p -> shown_only_active p'.
Proof. unfold shown_only_active. intros -> ->. done. Qed.

Lemma all_hidden_shown (p : MobileReplayer) : all_hidden p -> shown_only_active p.
Proof. intros H h v Hv Hd. rewrite (H h v Hv) in Hd. discriminate. Qed.

Lemma with_video_lookup (p : MobileReplayer) (h h' : nat) (f : Video -> Video) (v' : Video) :
  _videos (with_video h f p) !! h' = Some v' ->
  exists v, _videos p !! h' = Some v /\
    ((h' <> h /\ v' = v) \/ (h' = h /\ v' = f v)).
Proof.
  unfold with_video. simpl. destruct (decide (h = h')) as [->|Hne].
  - rewrite list_lookup_alter_eq. destruct (_videos p !! h') as [v|]; [|done].
    intros [= <-]. eauto.
  - rewrite list_lookup_alter_ne by done. eauto 6.
Qed.

Lemma with_video_shown (p : MobileReplayer) (h : nat) (f : Video -> Video) :
  (forall v, display (f v) = DisplayBlock -> display v = DisplayBlock) ->
  shown_only_active p -> shown_only_active (with_video h f p).
Proof.
  intros Hf Hp h' v' Hv' Hd.
  apply with_video_lookup in Hv' as (v & Hv & [[_ ->]|[-> ->]]); eauto.
Qed.

Lemma hideVideo_shown (p : MobileReplayer) (index : option Z) :
  shown_only_active p -> shown_only_active (hideVideo p index).
Proof.
  intros Hp. unfold hideVideo. destruct (getVideo p index); [|done].
  by apply with_video_shown.
Qed.

Lemma hideVideo_current_hidden (p : MobileReplayer) :
  shown_only_active p -> all_hidden (hideVideo p (_currentIndex p)).
Proof.
  intros Hp h v Hv. destruct (display v) eqn:Hd; [done|]. exfalso.
  unfold hideVideo in Hv.
  destruct (getVideo p (_currentIndex p)) as [h0|] eqn:Hg.
  - apply getVideo_Some in Hg as (i & Hi & Hi0 & -> & Hlt).
    apply with_video_lookup in Hv as (v0 & Hv0 & [[Hne ->]|[-> ->]]); [|done].
    pose proof (Hp _ _ Hv0 Hd) as Hc. rewrite Hi in Hc. injection Hc as ->.
    by rewrite Nat2Z.id in Hne.
  - pose proof (Hp _ _ Hv Hd) as Hc.
    assert (getVideo p (_currentIndex p) = Some h) as Hg'; [|congruence].
    apply getVideo_Some. exists (Z.of_nat h).
    apply lookup_lt_Some in Hv. repeat split; [done|lia|lia|done].
Qed.

Lemma loadSegment_show_shown (p : MobileReplayer) (index segmentOffsetMs : Z) :
  shown_only_active p ->
  shown_only_active (loadSegment_show p index segmentOffsetMs).1.
Proof.
  intros Hp. unfold loadSegment_show.
  set (p1 := if index - 1 >=? 0 then hideVideo p (Some (index - 1)) else p).
  assert (Hp1 : shown_only_active p1).
  { subst p1. destruct (index - 1 >=? 0); [by apply hideVideo_shown | done]. }
  pose proof (hideVideo_current_hidden p1 Hp1) as Hp2.
  set (p2 := hideVideo p1 (_currentIndex p1)) in *.
  destruct (getVideo p2 (Some index)) as [h|] eqn:Hg; simpl.
  - apply getVideo_Some in Hg as (i & [= <-] & Hi0 & -> & Hlt).
    intros h' v' Hv' Hd. simpl in *.
    destruct (decide (h' = Z.to_nat index)) as [->|Hne].
    + f_equal. lia.
    + rewrite !list_lookup_alter_ne in Hv' by done.
      rewrite (Hp2 _ _ Hv') in Hd. discriminate.
  - apply (shown_only_active_ext p2); [done..|]. by apply all_hidden_shown.
Qed.

Lemma playVideo_shown (p : MobileReplayer) (video : option nat) :
  shown_only_active p -> shown_only_active (playVideo p video).
Proof.
  intros Hp. destruct video as [h|]; [|done]. by apply with_video_shown.
Qed.

Lemma loadSegmentAtTime_shown (p : MobileReplayer) (videoOffsetMs : Z) (k : Kont) :
  shown_only_active p -> shown_only_active (loadSegmentAtTime p videoOffsetMs k).
Proof.
  apply (loadSegmentAtTime_preserves shown_only_active true); try done.
  - apply loadSegment_show_shown.
  - intros _. apply playVideo_shown.
Qed.

Lemma createVideo_hidden (attachments : list MobileAttachment) (start : Z) :
  all_hidden (initial attachments start).
Proof.
  intros h v. simpl.
  change (map (createVideo 1%Q) attachments) with (createVideo 1%Q <$> attachments).
  rewrite list_lookup_fmap. destruct (attachments !! h); [|done]. by intros [= <-].
Qed.

Lemma run_shown (attachments : list MobileAttachment) (start : Z) (events : list Event) :
  shown_only_active (run (construct attachments start) events).
Proof.
  apply (run_invariant shown_only_active); try done.
  - apply loadSegment_show_shown.
  - intros p h f Hf. apply with_video_shown. intros v. by rewrite Hf.
  - apply all_hidden_shown, createVideo_hidden.
Qed.

(** C8. In every state a player reaches from its construction, through any
    sequence of [play], [pause], [setConfig], [ended] events and timer
    passes, a handle that is shown is the handle at the active segment
    index, so that at most one handle is shown; the handles are created
    hidden. *)
Theorem shown_set_invariant (attachments : list MobileAttachment) (start : Z)
    (events : list Event) :
  shown_only_active (run (construct attachments start) events) /\
  (forall (h h' : nat) (v v' : Video),
     _videos (run (construct attachments start) events) !! h = Some v ->
     _videos (run (construct attachments start) events) !! h' = Some v' ->
     display v = DisplayBlock -> display v' = DisplayBlock -> h = h') /\
  all_hidden (initial attachments start).
Proof.
  pose proof (run_shown attachments start events) as Hinv.
  split; [done|]. split.
  - intros h h' v v' Hv Hv' Hd Hd'.
    pose proof (Hinv _ _ Hv Hd) as H1. pose proof (Hinv _ _ Hv' Hd') as H2.
    rewrite H1 in H2. injection H2. lia.
  - apply createVideo_hidden.
Qed.

(** ** Well-formedness is an invariant *)

Lemma wf_player_same_session (p p' : MobileReplayer) :
  same_session p p' -> wf_player p -> wf_player p'.
Proof.
  unfold wf_player. intros (Ha & _ & Ht & _ & _ & _ & _ & Hl) [Hlen Htl].
  rewrite Ha, Ht, Hl. done.
Qed.

Lemma run_wf (attachments : list MobileAttachment) (start : Z) (events : list Event) :
  wf_player (run (construct attachments start) events).
Proof.
  apply (run_invariant wf_player); try done.
  - intros p index off. apply wf_player_same_session, loadSegment_show_frame.
  - intros p h f _. apply wf_player_same_session, same_session_with_video.
  - split; simpl; [apply length_map | done].
Qed.

(** ** The [ended] event *)

(** C3, as the code has it. When the handle at [index] reports completion
    and [index + 1] is out of range, the timer is stopped where it is and
    [onFinished] is called. Otherwise segment [index + 1] is loaded at offset
    0 and played: at once when the timer has reached that segment's start
    (relative to the origin), and otherwise only after a timer notification
    registered for that start has fired; until then the handles and the
    active index are unchanged. *)
Theorem handleSegmentEnd_advances (p : MobileReplayer) (index : Z) :
  length (_videos p) = length (_attachments p) -> 0 <= index + 1 ->
  (Z.of_nat (length (_attachments p)) <= index + 1 ->
   handleSegmentEnd p index
     = call_onFinished (set_timer (mkTimer (time (_timer p)) false
                                     (pending (_timer p))) p)) /\
  (index + 1 < Z.of_nat (length (_attachments p)) ->
   exists seg, _attachments p !! Z.to_nat (index + 1) = Some seg /\
     (timestamp seg - _startTimestamp p <= time (_timer p) ->
      shows_and_plays (handleSegmentEnd p index) (index + 1) (0 # 1000) /\
      _timer (handleSegmentEnd p index) = _timer p) /\
     (time (_timer p) < timestamp seg - _startTimestamp p ->
      handleSegmentEnd p index
        = set_timer (timer_addNotificationAtTime (_timer p)
                       (timestamp seg - _startTimestamp p)
                       (mkWake (index + 1) 0 KPlaySegmentAtIndex)) p /\
      forall q, length (_videos q) = length (_videos p) ->
        shows_and_plays (wake q (mkWake (index + 1) 0 KPlaySegmentAtIndex))
          (index + 1) (0 # 1000))).
Proof.
  intros Hlen Hidx. unfold handleSegmentEnd. split.
  - intros Hout. destruct (Z.geb_spec (index + 1) (Z.of_nat (length (_attachments p))));
      [done|lia].
  - intros Hin. destruct (Z.geb_spec (index + 1) (Z.of_nat (length (_attachments p))));
      [lia|].
    destruct (js_index_in_range (_attachments p) (index + 1)) as [seg Hseg]; [lia|].
    exists seg. split; [by apply js_index_Some in Hseg as [_ ?]|].
    unfold playSegmentAtIndex, loadSegment.
    destruct (Z.ltb_spec (index + 1) 0); [lia|].
    destruct (Z.geb_spec (index + 1) (Z.of_nat (length (_attachments p)))); [lia|].
    simpl. rewrite Hseg. unfold timer_getTime. split.
    + intros Hnow.
      destruct (Z.ltb_spec (time (_timer p)) (timestamp seg - _startTimestamp p)); [lia|].
      pose proof (loadSegment_show_then_play p (index + 1) 0 ltac:(lia)) as Hplay.
      pose proof (loadSegment_show_timer p (index + 1) 0) as Htimer.
      destruct (loadSegment_show p (index + 1) 0) as [p' r]. simpl in *.
      split; [done|]. by rewrite playVideo_timer.
    + intros Hnow.
      destruct (Z.ltb_spec (time (_timer p)) (timestamp seg - _startTimestamp p)); [|lia].
      split; [done|]. intros q Hq. unfold wake. simpl.
      pose proof (loadSegment_show_then_play q (index + 1) 0 ltac:(lia)) as Hplay.
      by destruct (loadSegment_show q (index + 1) 0).
Qed.

Lemma handleSegmentEnd_advances_witness :
  handleSegmentEnd
    (run (construct [mkAttachment 1000 0 "a"; mkAttachment 1000 1500 "b"] 0)
       [EPlay 0; ETick 1000]) 1
  = call_onFinished
      (set_timer (mkTimer 1000 false [])
         (run (construct [mkAttachment 1000 0 "a"; mkAttachment 1000 1500 "b"] 0)
            [EPlay 0; ETick 1000])).
Proof.
  refine (proj1 (handleSegmentEnd_advances
    (run (construct [mkAttachment 1000 0 "a"; mkAttachment 1000 1500 "b"] 0)
       [EPlay 0; ETick 1000]) 1 _ _) _).
  - reflexivity.
  - lia.
  - simpl. lia.
Defined.

(** C3, as stated, fails: segment 0 of two segments with a gap between them
    ends at time 1000; the next segment starts at 1500. After the call
    segment 1 is not the active one and is not shown or playing; a wake-up at
    1500 has been registered instead. *)
Lemma handleSegmentEnd_waits_in_gap :
  let p := run (construct [mkAttachment 1000 0 "a"; mkAttachment 1000 1500 "b"] 0)
             [EPlay 0; ETick 1000] in
  0 + 1 < Z.of_nat (length (_attachments p)) /\
  ~ shows_and_plays (handleSegmentEnd p 0) (0 + 1) (0 # 1000) /\
  _currentIndex (handleSegmentEnd p 0) = Some 0 /\
  display <$> _videos (handleSegmentEnd p 0) !! 1%nat = Some DisplayNone /\
  paused <$> _videos (handleSegmentEnd p 0) !! 1%nat = Some true /\
  pending (_timer (handleSegmentEnd p 0)) = [(1500, mkWake 1 0 KPlaySegmentAtIndex)].
Proof.
  cbv zeta. split; [simpl; lia|]. split.
  - intros [Hc _]. vm_compute in Hc. discriminate.
  - repeat split; reflexivity.
Qed.

(** ** Resolving an offset *)

Lemma not_contained_in_gap (segs : list MobileAttachment) (target : Z) (i : nat)
    (a b : MobileAttachment) :
  sortedByStart segs = true -> nonOverlapping segs = true ->
  nonNegDurations segs = true ->
  segs !! i = Some a -> segs !! S i = Some b ->
  timestamp a + duration a < target < timestamp b ->
  forall (j : nat) c, segs !! j = Some c -> contains c target = false.
Proof.
  intros Hs Hd Hl Ha Hb Hgap j c Hc. unfold contains.
  pose proof (nonNegDurations_lookup segs i a Hl Ha).
  destruct (Nat.lt_trichotomy j i) as [Hlt|[->|Hgt]].
  - pose proof (nonOverlapping_lookup segs j i c a Hs Hd Hlt Hc Ha).
    destruct (Z.leb_spec target (timestamp c + duration c)); [lia|].
    apply andb_false_r.
  - assert (c = a) as -> by congruence.
    destruct (Z.leb_spec target (timestamp a + duration a)); [lia|].
    apply andb_false_r.
  - pose proof (sortedByStart_lookup segs (S i) j b c Hs ltac:(lia) Hb Hc).
    destruct (Z.geb_spec target (timestamp c)); [lia|done].
Qed.

Lemma findSegmentIndex_in_gap (segs : list MobileAttachment) (target : Z) (i : nat)
    (a b : MobileAttachment) :
  sortedByStart segs = true -> nonOverlapping segs = true ->
  nonNegDurations segs = true ->
  segs !! i = Some a -> segs !! S i = Some b ->
  timestamp a + duration a < target < timestamp b ->
  findSegmentIndex (mkTrackList segs) segs target 0 (Z.of_nat (length segs) - 1)
    = Normal (Z.of_nat i).
Proof.
  intros Hs Hd Hl Ha Hb Hgap.
  pose proof (not_contained_in_gap segs target i a b Hs Hd Hl Ha Hb Hgap) as Hnone.
  assert (latestStartLe segs target = Z.of_nat i) as <-.
  { apply lookup_lt_Some in Ha as Hlt. apply latestStartLe_unique; [lia| |].
    - intros j c Hj Hji.
      pose proof (sortedByStart_lookup segs j i c a Hs ltac:(lia) Hj Ha).
      pose proof (nonNegDurations_lookup segs i a Hl Ha). lia.
    - intros j c Hj Hij.
      pose proof (sortedByStart_lookup segs (S i) j b c Hs ltac:(lia) Hb Hj). lia. }
  eapply findSegmentIndex_eq_fuel.
  apply (findSegmentIndex_gap_fuel segs target Hs Hl Hnone
           (enough_fuel 0 (Z.of_nat (length segs) - 1)));
    try (unfold enough_fuel; lia).
  intros j c Hj Hlt. apply lookup_lt_Some in Hj. lia.
Qed.

Section Resolve.

Variable q : MobileReplayer.
Hypothesis Hwf : wf_player q.

Lemma getSegment_lookup (i : nat) (seg : MobileAttachment) :
  _attachments q !! i = Some seg -> getSegment q (Some (Z.of_nat i)) = Some seg.
Proof.
  intros H. simpl. apply js_index_Some. split; [lia|]. by rewrite Nat2Z.id.
Qed.

Lemma getSegmentIndexForTime_of_lookup (off : Z) (i : nat) (seg : MobileAttachment) :
  findSegmentIndex (mkTrackList (_attachments q)) (_attachments q)
    (_startTimestamp q + off) 0 (Z.of_nat (length (_attachments q)) - 1)
    = Normal (Z.of_nat i) ->
  _attachments q !! i = Some seg ->
  getSegmentIndexForTime q off =
    Normal (if contains seg (_startTimestamp q + off)
            then {| segment := Some (Z.of_nat i); previousSegment := None |}
            else {| segment := None; previousSegment := Some (Z.of_nat i) |}).
Proof using Hwf.
  intros Hfind Hseg. destruct Hwf as [_ Htl].
  unfold getSegmentIndexForTime.
  rewrite Htl, length_mkTrackList, Hfind, (getSegment_lookup i seg Hseg).
  unfold contains. by destruct (_ && _).
Qed.

Lemma loadSegment_no_wait (i : nat) (seg : MobileAttachment) (off : Z) (k : Kont) :
  _attachments q !! i = Some seg ->
  timestamp seg - _startTimestamp q <= time (_timer q) ->
  loadSegment q (Some (Z.of_nat i)) off k
    = ((loadSegment_show q (Z.of_nat i) off).1, Resolved (Z.of_nat i)).
Proof using Hwf.
  intros Hseg Hnow. destruct Hwf as [Hlen _].
  apply lookup_lt_Some in Hseg as Hlt.
  unfold loadSegment.
  destruct (Z.ltb_spec (Z.of_nat i) 0); [lia|].
  destruct (Z.geb_spec (Z.of_nat i) (Z.of_nat (length (_attachments q)))); [lia|].
  cbn [orb]. rewrite (getSegment_lookup i seg Hseg). unfold timer_getTime.
  destruct (Z.ltb_spec (time (_timer q)) (timestamp seg - _startTimestamp q)); [lia|].
  destruct (loadSegment_show_spec q (Z.of_nat i) off ltac:(lia)) as [Hr _].
  destruct (loadSegment_show q (Z.of_nat i) off) as [q' r]. simpl in *. by subst r.
Qed.

Lemma loadSegment_wait (i : nat) (seg : MobileAttachment) (off : Z) (k : Kont) :
  _attachments q !! i = Some seg ->
  time (_timer q) < timestamp seg - _startTimestamp q ->
  loadSegment q (Some (Z.of_nat i)) off k
    = (set_timer (timer_addNotificationAtTime (_timer q)
                    (timestamp seg - _startTimestamp q)
                    (mkWake (Z.of_nat i) off k)) q, Pending).
Proof.
  intros Hseg Hnow.
  apply lookup_lt_Some in Hseg as Hlt.
  unfold loadSegment.
  destruct (Z.ltb_spec (Z.of_nat i) 0); [lia|].
  destruct (Z.geb_spec (Z.of_nat i) (Z.of_nat (length (_attachments q)))); [lia|].
  cbn [orb]. rewrite (getSegment_lookup i seg Hseg). unfold timer_getTime.
  by destruct (Z.ltb_spec (time (_timer q)) (timestamp seg - _startTimestamp q)); [|lia].
Qed.

End Resolve.


(** An offset in the gap after segment [i]: that segment is loaded at its
    last frame, and the load of segment [i+1] waits for the timer. *)
Lemma loadSegmentAtTime_gap (q : MobileReplayer) (off : Z) (k : Kont) (i : nat)
    (a b : MobileAttachment) :
  wf_player q ->
  sortedByStart (_attachments q) = true -> nonOverlapping (_attachments q) = true ->
  nonNegDurations (_attachments q) = true ->
  _attachments q !! i = Some a -> _attachments q !! S i = Some b ->
  timestamp a + duration a < _startTimestamp q + off < timestamp b ->
  time (_timer q) = off ->
  let q' := (loadSegment_show q (Z.of_nat i) (duration a)).1 in
  loadSegmentAtTime q off k
    = set_timer (timer_addNotificationAtTime (_timer q')
                   (timestamp b - _startTimestamp q)
                   (mkWake (Z.of_nat (S i)) (_startTimestamp q + off - timestamp b) k))
        q'.
Proof.
  intros Hwf Hs Hd Hl Ha Hb Hgap Hnow q'. unfold loadSegmentAtTime.
  pose proof (nonNegDurations_lookup _ i a Hl Ha) as Hdur.
  rewrite (getSegmentIndexForTime_of_lookup q Hwf off i a
             (findSegmentIndex_in_gap _ _ i a b Hs Hd Hl Ha Hb Hgap) Ha).
  rewrite (not_contained_in_gap _ _ i a b Hs Hd Hl Ha Hb Hgap i a Ha).
  rewrite (getSegment_lookup q i a Ha).
  rewrite (loadSegment_no_wait q Hwf i a) by (done || lia).
  cbn [await runK]. fold q'.
  destruct (loadSegment_show_frame q (Z.of_nat i) (duration a)) as (Hss & _ & _).
  fold q' in Hss.
  pose proof (wf_player_same_session q q' Hss Hwf) as Hwf'.
  destruct Hss as (Hatt & Hst & _ & _ & Htime & _ & _ & _).
  unfold loadSegmentAtTime_rest.
  replace (Z.of_nat i + 1) with (Z.of_nat (S i)) by lia.
  rewrite (getSegment_lookup q' (S i) b) by (by rewrite Hatt).
  rewrite (loadSegment_wait q' (S i) b) by (rewrite ?Hatt, ?Hst, ?Htime; done || lia).
  by rewrite Hst.
Qed.

(** *** Any offset at or after the first start *)

Section Resolved.

Variable segs : list MobileAttachment.
Variable target : Z.
Hypothesis Hsorted : sortedByStart segs = true.
Hypothesis Hdisjoint : nonOverlapping segs = true.
Hypothesis Hlen : nonNegDurations segs = true.

(** When some segment contains the target, the search ends on a segment
    that contains it. *)
Lemma findSegmentIndex_contained_fuel (j : nat) (c : MobileAttachment)
    (fuel : nat) (s e : Z) :
  segs !! j = Some c -> contains c target = true ->
  0 <= s -> s <= Z.of_nat j <= e -> e < Z.of_nat (length segs) ->
  (Z.to_nat (e - s + 1) < fuel)%nat ->
  exists (r : nat) seg,
    findSegmentIndex_fuel fuel (mkTrackList segs) segs target s e
      = Some (Normal (Z.of_nat r)) /\
    segs !! r = Some seg /\ contains seg target = true.
Proof using Hsorted Hdisjoint Hlen.
  intros Hc Hin. revert s e.
  induction fuel as [|fuel IH]; intros s e Hs Hj He Hf; [lia|].
  simpl.
  destruct (body_mkTrackList segs target s e) as (a & Ha & ->); [lia..|].
  set (mid := (s + e) / 2) in *.
  assert (Hmid : s <= mid <= e).
  { subst mid. split; [apply Z.div_le_lower_bound | apply Z.div_le_upper_bound]; lia. }
  destruct (contains a target) eqn:Hca.
  { exists (Z.to_nat mid), a. rewrite Z2Nat.id by lia. done. }
  pose proof (nonNegDurations_lookup segs _ a Hlen Ha) as Hda.
  unfold contains in Hin, Hca.
  apply andb_true_iff in Hin as [Hin1 Hin2].
  apply Z.geb_le in Hin1. apply Z.leb_le in Hin2.
  destruct (Z.lt_trichotomy mid (Z.of_nat j)) as [Hlt|[Heq|Hgt]].
  - pose proof (sortedByStart_lookup segs (Z.to_nat mid) j a c
                  Hsorted ltac:(lia) Ha Hc).
    destruct (Z.geb_spec target (timestamp a)); [|lia].
    destruct (Z.leb_spec target (timestamp a + duration a)); [done|].
    destruct (Z.gtb_spec target (timestamp a)); [|lia].
    apply IH; lia.
  - assert (a = c) as -> by (rewrite Heq, Nat2Z.id in Ha; congruence).
    destruct (Z.geb_spec target (timestamp c)); [|lia].
    destruct (Z.leb_spec target (timestamp c + duration c)); [done|lia].
  - pose proof (nonOverlapping_lookup segs j (Z.to_nat mid) c a
                  Hsorted Hdisjoint ltac:(lia) Hc Ha).
    destruct (Z.geb_spec target (timestamp a)).
    + destruct (Z.leb_spec target (timestamp a + duration a)); [done|lia].
    + destruct (Z.gtb_spec target (timestamp a)); [lia|].
      apply IH; lia.
Qed.


End Resolved.


(** ** [pause] *)




(** ** Offsets before the first segment *)

(** Whenever the resolved timestamp precedes every segment's start (in
    particular when there is no segment), the lookup answers [-1] and the
    dereference of [getSegment(-1)] throws. *)
Lemma getSegmentIndexForTime_before_first (p : MobileReplayer) (relativeOffsetMs : Z) :
  wf_player p ->
  sortedByStart (_attachments p) = true -> nonNegDurations (_attachments p) = true ->
  (forall (j : nat) a, _attachments p !! j = Some a ->
     _startTimestamp p + relativeOffsetMs < timestamp a) ->
  getSegmentIndexForTime p relativeOffsetMs = Throw TypeError /\
  unhandledRejections (loadSegmentAtTime p relativeOffsetMs KDrop)
    = TypeError :: unhandledRejections p.
Proof.
  intros [Hlen Htl] Hs Hl Hbefore.
  assert (Hnone : forall (j : nat) a, _attachments p !! j = Some a ->
            contains a (_startTimestamp p + relativeOffsetMs) = false).
  { intros j a Hj. unfold contains. pose proof (Hbefore j a Hj).
    destruct (Z.geb_spec (_startTimestamp p + relativeOffsetMs) (timestamp a)); [lia|done]. }
  assert (E : getSegmentIndexForTime p relativeOffsetMs = Throw TypeError).
  { unfold getSegmentIndexForTime. rewrite Htl, length_mkTrackList.
    erewrite findSegmentIndex_eq_fuel; cycle 1.
    { apply (findSegmentIndex_gap_fuel _ _ Hs Hl Hnone
               (enough_fuel 0 (Z.of_nat (length (_attachments p)) - 1)));
        try (unfold enough_fuel; lia).
      intros j a Hj Hlt. apply lookup_lt_Some in Hj. lia. }
    unfold latestStartLe. rewrite latestStartLe_from_none by done. done. }
  split; [done|]. unfold loadSegmentAtTime. by rewrite E.
Qed.

(** * Further properties of the lookup *)

(** ** Range of the result *)

Section Range.

Variable segs : list MobileAttachment.
Variable target : Z.

Lemma findSegmentIndex_range_fuel (fuel : nat) (s e : Z) :
  0 <= s -> s <= e + 1 -> e < Z.of_nat (length segs) ->
  (Z.to_nat (e - s + 1) < fuel)%nat ->
  exists r,
    findSegmentIndex_fuel fuel (mkTrackList segs) segs target s e = Some (Normal r) /\
    s - 1 <= r <= e /\
    (s <= r -> exists seg, segs !! Z.to_nat r = Some seg /\ timestamp seg <= target).
Proof.
  revert s e. induction fuel as [|fuel IH]; intros s e Hs Hse He Hf; [lia|].
  simpl. destruct (Z.eq_dec s (e + 1)) as [->|Hne].
  - unfold findSegmentIndex_body. destruct (Z.gtb_spec (e + 1) e); [|lia].
    exists e. split; [done|]. split; lia.
  - destruct (body_mkTrackList segs target s e) as (a & Ha & ->); [lia..|].
    set (mid := (s + e) / 2) in *.
    assert (Hmid : s <= mid <= e).
    { subst mid. split; [apply Z.div_le_lower_bound | apply Z.div_le_upper_bound]; lia. }
    destruct (contains a target) eqn:Hc.
    + exists mid. split; [done|]. split; [lia|]. intros _. exists a. split; [done|].
      unfold contains in Hc. apply andb_true_iff in Hc as [Hge _].
      apply Z.geb_le in Hge. lia.
    + destruct (Z.gtb_spec target (timestamp a)) as [Hgt|Hle].
      * destruct (IH (mid + 1) e) as (r & Hr & Hrange & Hstart); [lia..|].
        exists r. split; [done|]. split; [lia|]. intros _.
        destruct (Z.eq_dec r mid) as [->|Hrm].
        -- exists a. split; [done|lia].
        -- apply Hstart. lia.
      * destruct (IH s (mid - 1)) as (r & Hr & Hrange & Hstart); [lia..|].
        exists r. split; [done|]. split; [lia|done].
Qed.

End Range.

(** X1. On the track list the constructor builds, for any segment list
    (sorted or not) and any bounds inside it, [findSegmentIndex] returns
    normally an index between [start - 1] and [end]; an index that is not
    below [start] names a segment that starts at or before the target. *)
Theorem findSegmentIndex_in_bounds (segs : list MobileAttachment)
    (target start end_ : Z) :
  0 <= start -> start <= end_ + 1 -> end_ < Z.of_nat (length segs) ->
  exists r,
    findSegmentIndex (mkTrackList segs) segs target start end_ = Normal r /\
    start - 1 <= r <= end_ /\
    (start <= r ->
     exists seg, segs !! Z.to_nat r = Some seg /\ timestamp seg <= target).
Proof.
  intros Hs Hse He.
  destruct (findSegmentIndex_range_fuel segs target (enough_fuel start end_) start end_)
    as (r & Hr & Hrange & Hstart); try done; [unfold enough_fuel; lia|].
  exists r. split; [by eapply findSegmentIndex_eq_fuel | done].
Qed.

Lemma findSegmentIndex_in_bounds_witness :
  exists r,
    findSegmentIndex
      (mkTrackList [mkAttachment 10 50 "a"; mkAttachment 10 20 "b"; mkAttachment 10 90 "c"])
      [mkAttachment 10 50 "a"; mkAttachment 10 20 "b"; mkAttachment 10 90 "c"]
      40 0 2 = Normal r /\ -1 <= r <= 2.
Proof.
  destruct (findSegmentIndex_in_bounds
              [mkAttachment 10 50 "a"; mkAttachment 10 20 "b"; mkAttachment 10 90 "c"]
              40 0 2) as (r & Hr & Hrange & _).
  - lia.
  - lia.
  - simpl. lia.
  - exists r. split; [exact Hr | lia].
Defined.

(** ** Targets on a segment's boundary *)

Lemma findSegmentIndex_contained_full (segs : list MobileAttachment) (target : Z)
    (j : nat) (c : MobileAttachment) :
  sortedByStart segs = true -> nonOverlapping segs = true ->
  nonNegDurations segs = true ->
  segs !! j = Some c -> contains c target = true ->
  exists (r : nat) seg,
    findSegmentIndex (mkTrackList segs) segs target 0 (Z.of_nat (length segs) - 1)
      = Normal (Z.of_nat r) /\
    segs !! r = Some seg /\ contains seg target = true.
Proof.
  intros Hs Hd Hl Hj Hin. apply lookup_lt_Some in Hj as Hlt.
  destruct (findSegmentIndex_contained_fuel segs target Hs Hd Hl j c
              (enough_fuel 0 (Z.of_nat (length segs) - 1)) 0
              (Z.of_nat (length segs) - 1) Hj Hin)
    as (r & seg & Hr & Hseg & Hcs); try (unfold enough_fuel; lia).
  exists r, seg. split; [by eapply findSegmentIndex_eq_fuel | done].
Qed.

(** X2. On a sorted, non-overlapping segment list with non-negative
    durations, a target that lies in some segment's closed interval
    [start, start + duration] - its first or last instant included - is
    resolved to a segment whose closed interval contains it. *)
Theorem findSegmentIndex_contained (segs : list MobileAttachment) (target : Z)
    (j : nat) (c : MobileAttachment) :
  sortedByStart segs = true -> nonOverlapping segs = true ->
  nonNegDurations segs = true ->
  segs !! j = Some c -> contains c target = true ->
  exists (r : nat) seg,
    findSegmentIndex (mkTrackList segs) segs target 0 (Z.of_nat (length segs) - 1)
      = Normal (Z.of_nat r) /\
    segs !! r = Some seg /\
    timestamp seg <= target <= timestamp seg + duration seg.
Proof.
  intros Hs Hd Hl Hj Hin.
  destruct (findSegmentIndex_contained_full segs target j c Hs Hd Hl Hj Hin)
    as (r & seg & Hr & Hseg & Hc).
  exists r, seg. split; [done|]. split; [done|].
  unfold contains in Hc. apply andb_true_iff in Hc as [Hge Hle].
  apply Z.geb_le in Hge. apply Z.leb_le in Hle. lia.
Qed.

Lemma findSegmentIndex_contained_witness :
  exists (r : nat) seg,
    findSegmentIndex
      (mkTrackList [mkAttachment 1000 0 "a"; mkAttachment 1000 1500 "b"])
      [mkAttachment 1000 0 "a"; mkAttachment 1000 1500 "b"] 1500 0 1
      = Normal (Z.of_nat r) /\
    [mkAttachment 1000 0 "a"; mkAttachment 1000 1500 "b"] !! r = Some seg /\
    timestamp seg <= 1500 <= timestamp seg + duration seg.
Proof.
  apply (findSegmentIndex_contained
           [mkAttachment 1000 0 "a"; mkAttachment 1000 1500 "b"] 1500 1
           (mkAttachment 1000 1500 "b")); reflexivity.
Defined.

(** * Further properties of the player *)

(** ** Offsets before the first segment *)

(** X3. When the resolved timestamp precedes every segment's start (in
    particular when there is no segment), [getSegmentIndexForTime] throws a
    [TypeError]; [loadSegmentAtTime] then only leaves a rejected promise
    behind. [play] has still started the timer at the offset and [pause] has
    still paused the active handle and stopped the timer at the offset, but
    no handle is shown, hidden or repositioned and the active index is
    unchanged. *)
Theorem offset_before_first_rejects (p : MobileReplayer) (offsetMs : Z) :
  wf_player p ->
  sortedByStart (_attachments p) = true -> nonNegDurations (_attachments p) = true ->
  (forall (j : nat) a, _attachments p !! j = Some a ->
     _startTimestamp p + offsetMs < timestamp a) ->
  getSegmentIndexForTime p offsetMs = Throw TypeError /\
  (forall k, loadSegmentAtTime p offsetMs k = unhandledRejection TypeError p) /\
  play p offsetMs
    = unhandledRejection TypeError (set_timer (timer_start (_timer p) offsetMs) p) /\
  pause p offsetMs
    = unhandledRejection TypeError
        (set_timer (timer_stop (_timer p) (Some offsetMs))
           match getVideo p (_currentIndex p) with
           | Some currentVideo => with_video currentVideo (set_paused true) p
           | None => p
           end).
Proof.
  intros Hwf Hs Hl Hbefore.
  assert (Hany : forall q, wf_player q -> _attachments q = _attachments p ->
            _startTimestamp q = _startTimestamp p ->
            forall k, loadSegmentAtTime q offsetMs k = unhandledRejection TypeError q).
  { intros q Hq Hatt Hst k.
    destruct (getSegmentIndexForTime_before_first q offsetMs Hq) as [E _];
      [by rewrite Hatt..| |].
    - intros j a Hj. rewrite Hatt in Hj. rewrite Hst. by eapply Hbefore.
    - unfold loadSegmentAtTime. by rewrite E. }
  split; [by apply getSegmentIndexForTime_before_first|].
  split; [by apply Hany|]. split.
  - unfold play, playSegmentAtTime. apply Hany; [|done..].
    destruct Hwf. by split.
  - unfold pause. destruct Hwf as [Hlen Htl].
    destruct (getVideo p (_currentIndex p)) as [h|]; apply Hany; try done;
      split; simpl; by rewrite ?length_alter.
Qed.

Lemma offset_before_first_rejects_witness :
  play (construct [mkAttachment 500 1000 "a"] 0) 200
  = unhandledRejection TypeError
      (set_timer (mkTimer 200 true [(1000, mkWake 0 0 KDrop)])
         (construct [mkAttachment 500 1000 "a"] 0)).
Proof.
  refine (proj1 (proj2 (proj2 (offset_before_first_rejects
            (construct [mkAttachment 500 1000 "a"] 0) 200 _ _ _ _)))).
  - split; reflexivity.
  - reflexivity.
  - reflexivity.
  - intros [|j] a Hj; simpl in Hj; [|discriminate].
    injection Hj as <-. simpl. lia.
Defined.

Lemma construct_shown_initial (attachments : list MobileAttachment) (start : Z) :
  shown_only_active (construct attachments start).
Proof. apply (run_shown attachments start []). Qed.

(** ** [loadSegment] on a valid index *)

(** X4. [loadSegment] on a valid index. When the timer has reached the
    segment's start (relative to the origin), the promise is resolved with
    the index: the segment is the active one, its handle is shown at the
    requested offset and is the only one shown, and the timer, the paused
    flags and the rates are untouched. When the timer has not reached it,
    nothing changes but the timer's pending list, which gets one
    notification for that start, and the promise stays pending. *)
Theorem loadSegment_valid_index (p : MobileReplayer) (i : nat) (seg : MobileAttachment)
    (segmentOffsetMs : Z) (k : Kont) :
  wf_player p -> shown_only_active p -> _attachments p !! i = Some seg ->
  (timestamp seg - _startTimestamp p <= time (_timer p) ->
   let p' := (loadSegment p (Some (Z.of_nat i)) segmentOffsetMs k).1 in
   (loadSegment p (Some (Z.of_nat i)) segmentOffsetMs k).2 = Resolved (Z.of_nat i) /\
   _currentIndex p' = Some (Z.of_nat i) /\
   (exists v, _videos p' !! i = Some v /\ display v = DisplayBlock /\
      currentTime v = segmentOffsetMs # 1000) /\
   (forall (h : nat) v, h <> i -> _videos p' !! h = Some v -> display v = DisplayNone) /\
   _timer p' = _timer p /\
   paused <$> _videos p' = paused <$> _videos p /\
   playbackRate <$> _videos p' = playbackRate <$> _videos p) /\
  (time (_timer p) < timestamp seg - _startTimestamp p ->
   loadSegment p (Some (Z.of_nat i)) segmentOffsetMs k
     = (set_timer (timer_addNotificationAtTime (_timer p)
                     (timestamp seg - _startTimestamp p)
                     (mkWake (Z.of_nat i) segmentOffsetMs k)) p, Pending)).
Proof.
  intros Hwf Hsh Hseg. split.
  - intros Hnow. rewrite (loadSegment_no_wait p Hwf i seg) by done. simpl.
    apply lookup_lt_Some in Hseg as Hlt. destruct Hwf as [Hlen _].
    destruct (loadSegment_show_spec p (Z.of_nat i) segmentOffsetMs ltac:(lia))
      as (_ & _ & Hc & Hpa & Hra & v & Hv & Hdv & Htv).
    rewrite Nat2Z.id in Hv.
    pose proof (loadSegment_show_shown p (Z.of_nat i) segmentOffsetMs Hsh) as Hsh'.
    split; [done|]. split; [done|]. split; [eauto|]. split.
    + intros h w Hne Hw. destruct (display w) eqn:Hdw; [done|].
      pose proof (Hsh' _ _ Hw Hdw) as Hc'. rewrite Hc in Hc'.
      injection Hc' as Hc'. lia.
    + split; [apply loadSegment_show_timer | done].
  - intros Hnow. by apply loadSegment_wait.
Qed.

Lemma loadSegment_valid_index_witness :
  loadSegment (construct [mkAttachment 1000 0 "a"; mkAttachment 1000 1500 "b"] 0)
    (Some 1) 0 KDrop
  = (set_timer (mkTimer 0 false [(1500, mkWake 1 0 KDrop)])
       (construct [mkAttachment 1000 0 "a"; mkAttachment 1000 1500 "b"] 0), Pending).
Proof.
  refine (proj2 (loadSegment_valid_index
            (construct [mkAttachment 1000 0 "a"; mkAttachment 1000 1500 "b"] 0)
            1 (mkAttachment 1000 1500 "b") 0 KDrop _ _ _) _).
  - split; reflexivity.
  - apply construct_shown_initial.
  - reflexivity.
  - simpl. lia.
Defined.

(** ** The constructor *)

Lemma wf_player_initial (attachments : list MobileAttachment) (start : Z) :
  wf_player (initial attachments start).
Proof. split; simpl; [apply length_map | done]. Qed.

(** X5. The constructor prepares segment 0. With no segment it leaves the
    initial state. When the first segment has started at the origin it makes
    it the active one and shows its handle at position 0, paused, every other
    handle hidden, the timer untouched. When the first segment starts after
    the origin nothing is shown or active: one notification for its start is
    left with the timer. *)
Theorem construct_first_segment (attachments : list MobileAttachment) (start : Z) :
  match attachments with
  | [] => construct attachments start = initial attachments start
  | seg0 :: _ =>
    if timestamp seg0 - start <=? 0 then
      _currentIndex (construct attachments start) = Some 0 /\
      _timer (construct attachments start) = newTimer /\
      (exists v, _videos (construct attachments start) !! 0%nat = Some v /\
         display v = DisplayBlock /\ currentTime v = 0 # 1000 /\
         paused v = true /\ playbackRate v = 1%Q) /\
      (forall (h : nat) v, h <> 0%nat ->
         _videos (construct attachments start) !! h = Some v ->
         display v = DisplayNone)
    else
      construct attachments start
        = set_timer (timer_addNotificationAtTime newTimer (timestamp seg0 - start)
                       (mkWake 0 0 KDrop)) (initial attachments start)
  end.
Proof.
  destruct attachments as [|seg0 rest]; [done|].
  pose proof (wf_player_initial (seg0 :: rest) start) as Hwf.
  set (p0 := initial (seg0 :: rest) start) in *.
  assert (Hseg : _attachments p0 !! 0%nat = Some seg0) by done.
  unfold construct. fold p0.
  destruct (Z.leb_spec (timestamp seg0 - start) 0) as [Hle|Hgt].
  - pose proof (loadSegment_no_wait p0 Hwf 0 seg0 0 KDrop Hseg ltac:(simpl; lia)) as E.
    change (Z.of_nat 0) with 0 in E. rewrite E. cbn [await runK fst].
    destruct (loadSegment_show_spec p0 0 0 ltac:(simpl; lia))
      as (_ & _ & Hc & Hpa & Hra & v & Hv & Hdv & Htv).
    pose proof (loadSegment_show_shown p0 0 0
                  (all_hidden_shown _ (createVideo_hidden (seg0 :: rest) start))) as Hsh.
    split; [done|]. split; [apply loadSegment_show_timer|]. split.
    + exists v. split; [done|]. split; [done|]. split; [done|].
      change (Z.to_nat 0) with 0%nat in Hv.
      pose proof (list_lookup_fmap paused
                    (_videos (loadSegment_show p0 0 0).1) 0%nat) as Hp0.
      pose proof (list_lookup_fmap playbackRate
                    (_videos (loadSegment_show p0 0 0).1) 0%nat) as Hr0.
      rewrite Hpa in Hp0. rewrite Hra in Hr0. rewrite Hv in Hp0, Hr0.
      rewrite list_lookup_fmap in Hp0. rewrite list_lookup_fmap in Hr0.
      simpl in Hp0, Hr0.
      split; congruence.
    + intros h w Hne Hw. destruct (display w) eqn:Hdw; [done|].
      pose proof (Hsh _ _ Hw Hdw) as Hc'. rewrite Hc in Hc'.
      injection Hc' as Hc'. lia.
  - pose proof (loadSegment_wait p0 0 seg0 0 KDrop Hseg ltac:(simpl; lia)) as E.
    change (Z.of_nat 0) with 0 in E. by rewrite E.
Qed.

(** ** [play] *)

Lemma loadSegmentAtTime_exact (q : MobileReplayer) (off : Z) (k : Kont) (r : nat)
    (seg : MobileAttachment) :
  wf_player q ->
  findSegmentIndex (mkTrackList (_attachments q)) (_attachments q)
    (_startTimestamp q + off) 0 (Z.of_nat (length (_attachments q)) - 1)
    = Normal (Z.of_nat r) ->
  _attachments q !! r = Some seg ->
  contains seg (_startTimestamp q + off) = true ->
  time (_timer q) = off ->
  loadSegmentAtTime q off k
    = runK k (loadSegment_show q (Z.of_nat r)
                (_startTimestamp q + off - timestamp seg)).1 (Some (Z.of_nat r)).
Proof.
  intros Hwf Hfind Hseg Hc Hnow. unfold loadSegmentAtTime.
  rewrite (getSegmentIndexForTime_of_lookup q Hwf off r seg Hfind Hseg), Hc.
  unfold loadSegmentAtTime_rest. rewrite (getSegment_lookup q r seg Hseg).
  unfold contains in Hc. apply andb_true_iff in Hc as [Hge _]. apply Z.geb_le in Hge.
  by rewrite (loadSegment_no_wait q Hwf r seg) by (done || lia).
Qed.

Lemma wf_player_set_timer (p : MobileReplayer) (t : Timer) :
  wf_player p -> wf_player (set_timer t p).
Proof. intros [? ?]. by split. Qed.

(** X6. [play] at an offset that some segment contains (its first and last
    instant included), on a sorted, non-overlapping segment list: the timer
    runs from the offset, and a segment containing the offset is the active
    one, its handle the only one shown, positioned at the offset within the
    segment and playing at the current speed. *)
Theorem play_in_segment (p : MobileReplayer) (offsetMs : Z) (j : nat)
    (c : MobileAttachment) :
  wf_player p -> shown_only_active p ->
  sortedByStart (_attachments p) = true -> nonOverlapping (_attachments p) = true ->
  nonNegDurations (_attachments p) = true ->
  _attachments p !! j = Some c -> contains c (_startTimestamp p + offsetMs) = true ->
  exists (r : nat) seg,
    _attachments p !! r = Some seg /\
    contains seg (_startTimestamp p + offsetMs) = true /\
    shows_and_plays (play p offsetMs) (Z.of_nat r)
      ((_startTimestamp p + offsetMs - timestamp seg) # 1000) /\
    (forall (h : nat) v, h <> r -> _videos (play p offsetMs) !! h = Some v ->
       display v = DisplayNone) /\
    _timer (play p offsetMs) = timer_start (_timer p) offsetMs /\
    getCurrentTime (play p offsetMs) = offsetMs.
Proof.
  intros Hwf Hsh Hs Hd Hl Hj Hin.
  destruct (findSegmentIndex_contained_full _ _ j c Hs Hd Hl Hj Hin)
    as (r & seg & Hfind & Hseg & Hc).
  exists r, seg. split; [done|]. split; [done|].
  set (p2 := set_timer (timer_start (_timer p) offsetMs) p).
  pose proof (wf_player_set_timer p (timer_start (_timer p) offsetMs) Hwf) as Hwf2.
  fold p2 in Hwf2.
  assert (E : play p offsetMs
              = runK KPlaySegmentAtTime
                  (loadSegment_show p2 (Z.of_nat r)
                     (_startTimestamp p + offsetMs - timestamp seg)).1
                  (Some (Z.of_nat r))).
  { unfold play, playSegmentAtTime. fold p2.
    by apply (loadSegmentAtTime_exact p2 offsetMs KPlaySegmentAtTime r seg). }
  apply lookup_lt_Some in Hseg as Hlt.
  assert (Hrange : 0 <= Z.of_nat r < Z.of_nat (length (_videos p2))).
  { destruct Hwf2 as [Hlen2 _]. rewrite Hlen2. change (_attachments p2) with (_attachments p).
    lia. }
  pose proof (loadSegment_show_then_play p2 (Z.of_nat r)
                (_startTimestamp p + offsetMs - timestamp seg) Hrange) as Hplay.
  destruct (loadSegment_show_spec p2 (Z.of_nat r)
              (_startTimestamp p + offsetMs - timestamp seg) Hrange)
    as (Hr & _).
  rewrite Hr in Hplay. change (runK KPlaySegmentAtIndex) with (runK KPlaySegmentAtTime) in Hplay.
  rewrite <- E in Hplay.
  assert (Hsh' : shown_only_active (play p offsetMs)).
  { unfold play, playSegmentAtTime. by apply loadSegmentAtTime_shown. }
  assert (Htimer : _timer (play p offsetMs) = timer_start (_timer p) offsetMs).
  { rewrite E. cbn [runK]. by rewrite playVideo_timer, loadSegment_show_timer. }
  split; [done|]. split; [|split; [done|]].
  - intros h w Hne Hw. destruct (display w) eqn:Hdw; [done|].
    pose proof (Hsh' _ _ Hw Hdw) as Hc'. destruct Hplay as [Hci _].
    rewrite Hci in Hc'. injection Hc' as Hc'. lia.
  - unfold getCurrentTime, timer_getTime. destruct Hplay as [-> _]. by rewrite Htimer.
Qed.

Lemma play_in_segment_witness :
  shows_and_plays
    (play (construct [mkAttachment 1000 0 "a"; mkAttachment 1000 1500 "b"] 0) 1700)
    1 (200 # 1000).
Proof.
  destruct (play_in_segment
              (construct [mkAttachment 1000 0 "a"; mkAttachment 1000 1500 "b"] 0)
              1700 1 (mkAttachment 1000 1500 "b"))
    as (r & seg & Hseg & Hc & Hplay & _).
  - split; reflexivity.
  - apply construct_shown_initial.
  - reflexivity.
  - reflexivity.
  - reflexivity.
  - reflexivity.
  - reflexivity.
  - destruct r as [|[|r]]; simpl in Hseg; try discriminate;
      injection Hseg as <-; [discriminate|exact Hplay].
Defined.

(** One pass of the run loop over a single pending notification. *)
Lemma timer_advance_single (now dt targetMs : Z) (w : Wake) :
  timer_advance (mkTimer now true [(targetMs, w)]) dt =
    if decide (targetMs <= now + Z.max 0 dt)
    then (mkTimer (now + Z.max 0 dt) true [], [w])
    else (mkTimer (now + Z.max 0 dt) true [(targetMs, w)], []).
Proof.
  unfold timer_advance. simpl. rewrite !filter_cons, !filter_nil. simpl.
  destruct (decide (targetMs <= now + Z.max 0 dt));
    destruct (decide (~ targetMs <= now + Z.max 0 dt)); done.
Qed.

(** X7. [play] at an offset in the gap between segments [i] and [i+1]:
    segment [i] becomes the active one and its handle is shown at its full
    duration, no handle is started, and one notification for the start of
    segment [i+1] is added to the timer, which runs from the offset. If
    nothing else was pending, timer passes that stay short of that start
    only advance the time, and the pass that reaches it makes segment [i+1]
    the active one, shown and playing at the current speed, its position set
    from the offset of the original call (a negative number of seconds). *)
Theorem play_in_gap (p : MobileReplayer) (offsetMs : Z) (i : nat)
    (a b : MobileAttachment) :
  wf_player p ->
  sortedByStart (_attachments p) = true -> nonOverlapping (_attachments p) = true ->
  nonNegDurations (_attachments p) = true ->
  _attachments p !! i = Some a -> _attachments p !! S i = Some b ->
  timestamp a + duration a < _startTimestamp p + offsetMs < timestamp b ->
  let p' := play p offsetMs in
  let nextStart := timestamp b - _startTimestamp p in
  let w := mkWake (Z.of_nat (S i)) (_startTimestamp p + offsetMs - timestamp b)
             KPlaySegmentAtTime in
  _currentIndex p' = Some (Z.of_nat i) /\
  (exists v, _videos p' !! i = Some v /\ display v = DisplayBlock /\
     currentTime v = duration a # 1000) /\
  paused <$> _videos p' = paused <$> _videos p /\
  _timer p' = mkTimer offsetMs true (pending (_timer p) ++ [(nextStart, w)]) /\
  (pending (_timer p) = [] ->
   forall dt,
     (offsetMs + Z.max 0 dt < nextStart ->
      _videos (timerStep p' dt) = _videos p' /\
      _currentIndex (timerStep p' dt) = Some (Z.of_nat i) /\
      getCurrentTime (timerStep p' dt) = offsetMs + Z.max 0 dt) /\
     (nextStart <= offsetMs + Z.max 0 dt ->
      shows_and_plays (timerStep p' dt) (Z.of_nat (S i))
        ((_startTimestamp p + offsetMs - timestamp b) # 1000) /\
      pending (_timer (timerStep p' dt)) = [])).
Proof.
  intros Hwf Hs Hd Hl Ha Hb Hgap p' nextStart w.
  set (p2 := set_timer (timer_start (_timer p) offsetMs) p).
  pose proof (wf_player_set_timer p (timer_start (_timer p) offsetMs) Hwf) as Hwf2.
  fold p2 in Hwf2.
  pose proof (loadSegmentAtTime_gap p2 offsetMs KPlaySegmentAtTime i a b
                Hwf2 Hs Hd Hl Ha Hb Hgap eq_refl) as E.
  cbv zeta in E. rewrite loadSegment_show_timer in E.
  change (loadSegmentAtTime p2 offsetMs KPlaySegmentAtTime) with p' in E.
  set (q := (loadSegment_show p2 (Z.of_nat i) (duration a)).1) in *.
  apply lookup_lt_Some in Ha as Hlta. apply lookup_lt_Some in Hb as Hltb.
  assert (Hlen2 : length (_videos p2) = length (_attachments p)) by apply Hwf.
  destruct (loadSegment_show_spec p2 (Z.of_nat i) (duration a) ltac:(lia))
    as (_ & Hss & Hc & Hpa & _ & v & Hv & Hdv & Htv).
  fold q in Hss, Hc, Hpa, Hv. rewrite Nat2Z.id in Hv.
  assert (Htimer : _timer p' = mkTimer offsetMs true (pending (_timer p) ++ [(nextStart, w)]))
    by (by rewrite E).
  assert (Hci : _currentIndex p' = Some (Z.of_nat i)) by (by rewrite E).
  assert (Hvid : _videos p' = _videos q) by (by rewrite E).
  split; [done|]. split; [rewrite Hvid; eauto|]. split; [by rewrite Hvid, Hpa|].
  split; [done|].
  intros Hnil dt. rewrite Hnil in Htimer. simpl in Htimer.
  unfold timerStep. rewrite Htimer, timer_advance_single.
  destruct (decide (nextStart <= offsetMs + Z.max 0 dt)) as [Hdue|Hnot]; simpl.
  - split; [lia|]. intros _. unfold wake. cbn [wake_index wake_segmentOffsetMs wake_k w].
    set (q1 := set_timer (mkTimer (offsetMs + Z.max 0 dt) true []) p').
    assert (Hrange : 0 <= Z.of_nat (S i) < Z.of_nat (length (_videos q1))).
    { change (_videos q1) with (_videos p'). rewrite Hvid.
      destruct Hss as (_ & _ & _ & _ & _ & _ & _ & ->). lia. }
    pose proof (loadSegment_show_then_play q1 (Z.of_nat (S i))
                  (_startTimestamp p + offsetMs - timestamp b) Hrange) as Hplay.
    pose proof (loadSegment_show_timer q1 (Z.of_nat (S i))
                  (_startTimestamp p + offsetMs - timestamp b)) as Ht1.
    destruct (loadSegment_show q1 (Z.of_nat (S i))
                (_startTimestamp p + offsetMs - timestamp b)) as [q2 r].
    simpl in *. split; [done|]. by rewrite playVideo_timer, Ht1.
  - split; [|lia]. intros _. split; [done|]. split; [done|].
    unfold getCurrentTime. simpl. by rewrite Hci.
Qed.

Lemma play_in_gap_witness :
  let p := construct [mkAttachment 1000 0 "a"; mkAttachment 1000 1500 "b"] 0 in
  _currentIndex (play p 1200) = Some 0 /\
  _timer (play p 1200)
    = mkTimer 1200 true [(1500, mkWake 1 (-300) KPlaySegmentAtTime)].
Proof.
  intros p.
  destruct (play_in_gap p 1200 0 (mkAttachment 1000 0 "a") (mkAttachment 1000 1500 "b"))
    as (Hc & _ & _ & Ht & _).
  - split; reflexivity.
  - reflexivity.
  - reflexivity.
  - reflexivity.
  - reflexivity.
  - reflexivity.
  - simpl. lia.
  - split; [exact Hc | exact Ht].
Defined.

Lemma hideVideo_rejections (p : MobileReplayer) (index : option Z) :
  unhandledRejections (hideVideo p index) = unhandledRejections p.
Proof. unfold hideVideo. by destruct (getVideo p index). Qed.

Lemma loadSegment_show_rejections (p : MobileReplayer) (index segmentOffsetMs : Z) :
  unhandledRejections (loadSegment_show p index segmentOffsetMs).1
    = unhandledRejections p.
Proof.
  unfold loadSegment_show.
  set (p1 := if index - 1 >=? 0 then hideVideo p (Some (index - 1)) else p).
  assert (H1 : unhandledRejections p1 = unhandledRejections p).
  { subst p1. destruct (index - 1 >=? 0); [apply hideVideo_rejections | done]. }
  pose proof (hideVideo_rejections p1 (_currentIndex p1)) as H2.
  destruct (getVideo _ (Some index)); simpl; congruence.
Qed.

(** ** [play] past the last segment *)

Lemma findSegmentIndex_after_end (segs : list MobileAttachment) (target : Z) (i : nat)
    (a : MobileAttachment) :
  sortedByStart segs = true -> nonOverlapping segs = true ->
  nonNegDurations segs = true ->
  segs !! i = Some a -> length segs = S i ->
  timestamp a + duration a < target ->
  findSegmentIndex (mkTrackList segs) segs target 0 (Z.of_nat (length segs) - 1)
    = Normal (Z.of_nat i) /\
  contains a target = false.
Proof.
  intros Hs Hd Hl Ha Hlen Hend.
  pose proof (nonNegDurations_lookup segs i a Hl Ha) as Hda.
  assert (Hnone : forall (j : nat) c, segs !! j = Some c -> contains c target = false).
  { intros j c Hj. unfold contains. apply lookup_lt_Some in Hj as Hlt.
    destruct (decide (j = i)) as [->|Hne].
    - assert (c = a) as -> by congruence.
      destruct (Z.leb_spec target (timestamp a + duration a)); [lia|].
      apply andb_false_r.
    - pose proof (nonOverlapping_lookup segs j i c a Hs Hd ltac:(lia) Hj Ha).
      destruct (Z.leb_spec target (timestamp c + duration c)); [lia|].
      apply andb_false_r. }
  split; [|by eapply Hnone].
  assert (latestStartLe segs target = Z.of_nat i) as <-.
  { apply latestStartLe_unique; [lia| |].
    - intros j c Hj Hji.
      pose proof (sortedByStart_lookup segs j i c a Hs ltac:(lia) Hj Ha). lia.
    - intros j c Hj Hij. apply lookup_lt_Some in Hj. lia. }
  eapply findSegmentIndex_eq_fuel.
  apply (findSegmentIndex_gap_fuel segs target Hs Hl Hnone
           (enough_fuel 0 (Z.of_nat (length segs) - 1)));
    try (unfold enough_fuel; lia).
  intros j c Hj Hlt. apply lookup_lt_Some in Hj. lia.
Qed.

(** X8. [play] at an offset after the end of the last segment: the last
    segment becomes the active one and its handle is shown at its full
    duration, but no handle is started and no notification is registered;
    the timer runs on from the offset. *)
Theorem play_after_end (p : MobileReplayer) (offsetMs : Z) (i : nat)
    (a : MobileAttachment) :
  wf_player p ->
  sortedByStart (_attachments p) = true -> nonOverlapping (_attachments p) = true ->
  nonNegDurations (_attachments p) = true ->
  _attachments p !! i = Some a -> length (_attachments p) = S i ->
  timestamp a + duration a < _startTimestamp p + offsetMs ->
  _currentIndex (play p offsetMs) = Some (Z.of_nat i) /\
  (exists v, _videos (play p offsetMs) !! i = Some v /\ display v = DisplayBlock /\
     currentTime v = duration a # 1000) /\
  paused <$> _videos (play p offsetMs) = paused <$> _videos p /\
  _timer (play p offsetMs) = timer_start (_timer p) offsetMs /\
  unhandledRejections (play p offsetMs) = unhandledRejections p.
Proof.
  intros Hwf Hs Hd Hl Ha Hlen Hend.
  set (p2 := set_timer (timer_start (_timer p) offsetMs) p).
  pose proof (wf_player_set_timer p (timer_start (_timer p) offsetMs) Hwf) as Hwf2.
  fold p2 in Hwf2.
  destruct (findSegmentIndex_after_end _ _ i a Hs Hd Hl Ha Hlen Hend) as [Hfind Hc].
  pose proof (nonNegDurations_lookup _ i a Hl Ha) as Hda.
  set (q := (loadSegment_show p2 (Z.of_nat i) (duration a)).1).
  assert (E : play p offsetMs = q).
  { unfold play, playSegmentAtTime, loadSegmentAtTime. fold p2.
    rewrite (getSegmentIndexForTime_of_lookup p2 Hwf2 offsetMs i a Hfind Ha).
    change (_startTimestamp p2) with (_startTimestamp p). rewrite Hc.
    rewrite (getSegment_lookup p2 i a Ha).
    rewrite (loadSegment_no_wait p2 Hwf2 i a) by (done || (simpl; lia)).
    cbn [await runK]. fold q. unfold loadSegmentAtTime_rest.
    assert (getSegment q (Some (Z.of_nat i + 1)) = None) as ->; [|done].
    destruct (loadSegment_show_frame p2 (Z.of_nat i) (duration a)) as ((Hatt & _) & _).
    fold q in Hatt. simpl getSegment. rewrite Hatt.
    destruct (js_index (_attachments p2) (Z.of_nat i + 1)) as [c|] eqn:Hjs; [|done].
    apply js_index_Some in Hjs as [_ Hjs]. apply lookup_lt_Some in Hjs.
    change (_attachments p2) with (_attachments p) in Hjs. lia. }
  assert (Hlen2 : length (_videos p2) = length (_attachments p)) by apply Hwf.
  destruct (loadSegment_show_spec p2 (Z.of_nat i) (duration a) ltac:(lia))
    as (_ & _ & Hci & Hpa & _ & v & Hv & Hdv & Htv).
  fold q in Hci, Hpa, Hv. rewrite Nat2Z.id in Hv. rewrite E.
  split; [done|]. split; [eauto|]. split; [done|].
  split; [apply loadSegment_show_timer|].
  apply (loadSegment_show_rejections p2).
Qed.

Lemma play_after_end_witness :
  _currentIndex (play (construct [mkAttachment 1000 0 "a"] 0) 5000) = Some 0 /\
  _timer (play (construct [mkAttachment 1000 0 "a"] 0) 5000) = mkTimer 5000 true [].
Proof.
  destruct (play_after_end (construct [mkAttachment 1000 0 "a"] 0) 5000 0
              (mkAttachment 1000 0 "a")) as (Hc & _ & _ & Ht & _).
  - split; reflexivity.
  - reflexivity.
  - reflexivity.
  - reflexivity.
  - reflexivity.
  - reflexivity.
  - simpl. lia.
  - split; [exact Hc | exact Ht].
Defined.

(** * Properties of every event and every reachable state *)

(** A property kept by the elementary updates the operations are made of is
    kept by every event. *)
Section Operations.

Variable P : MobileReplayer -> Prop.

Hypothesis O_show : forall p index segmentOffsetMs,
  P p -> P (loadSegment_show p index segmentOffsetMs).1.
Hypothesis O_timer : forall p t, P p -> P (set_timer t p).
Hypothesis O_play : forall p video, P p -> P (playVideo p video).
Hypothesis O_pause : forall p h, P p -> P (with_video h (set_paused true) p).
Hypothesis O_config : forall p s, P p -> P (setConfig p (Some s)).
Hypothesis O_reject : forall p e, P p -> P (unhandledRejection e p).
Hypothesis O_finished : forall p, P p -> P (call_onFinished p).

Lemma step_preserved p e :
  finishes (length (_attachments p)) e = false -> P p -> P (step p e).
Proof using O_show O_timer O_play O_pause O_config O_reject.
  intros Hfin Hp.
  assert (Hplay : true = true -> forall q video, P q -> P (playVideo q video))
    by (intros _; apply O_play).
  assert (Hwait : forall q targetMs w,
            P q -> P (set_timer (timer_addNotificationAtTime (_timer q) targetMs w) q))
    by (intros; by apply O_timer).
  destruct e as [o|o|s|i|dt]; cbn [step finishes] in Hfin |- *.
  - apply (loadSegmentAtTime_preserves P true); auto.
  - apply (loadSegmentAtTime_preserves P true); auto. apply O_timer.
    destruct (getVideo p (_currentIndex p)); [by apply O_pause | done].
  - destruct s as [s|]; [by apply O_config | done].
  - unfold handleSegmentEnd. rewrite Hfin.
    apply (await_preserves P true); auto. by apply (loadSegment_preserves P).
  - unfold timerStep. destruct (timer_advance (_timer p) dt) as [t' due].
    assert (Hq : P (set_timer t' p)) by (by apply O_timer).
    revert Hq. generalize (set_timer t' p).
    induction due as [|w due IH]; intros q Hq; simpl; [done|].
    apply IH. apply (wake_preserves P true); auto.
Qed.

Lemma step_preserved_all p e : P p -> P (step p e).
Proof using O_show O_timer O_play O_pause O_config O_reject O_finished.
  intros Hp. destruct (finishes (length (_attachments p)) e) eqn:Hfin.
  - destruct e as [o|o|s|i|dt]; try discriminate. cbn [step finishes] in Hfin |- *.
    unfold handleSegmentEnd. rewrite Hfin. by apply O_finished, O_timer.
  - by apply step_preserved.
Qed.

Lemma run_from_preserved p es : P p -> P (run p es).
Proof using O_show O_timer O_play O_pause O_config O_reject O_finished.
  unfold run. revert p. induction es as [|e es IH]; intros p Hp; simpl; [done|].
  by apply IH, step_preserved_all.
Qed.

Lemma construct_preserved attachments start :
  P (initial attachments start) -> P (construct attachments start).
Proof using O_show O_timer.
  intros H0. unfold construct.
  apply (await_preserves P false O_show);
    [intros; by apply O_timer | intros Hf; discriminate Hf | done |].
  apply (loadSegment_preserves P O_show); [intros; by apply O_timer | done].
Qed.

End Operations.

(** ** The paused flags under [play] *)

(** X9. [play] never pauses a handle: a handle that is paused after
    [play(offset)] was already paused before it, whatever the offset. In
    particular a handle that was playing and is not the one the offset
    resolves to keeps playing. *)
Theorem play_never_pauses (p : MobileReplayer) (offsetMs : Z) (h : nat) (v' : Video) :
  _videos (play p offsetMs) !! h = Some v' -> paused v' = true ->
  exists v, _videos p !! h = Some v /\ paused v = true.
Proof.
  intros Hv' Hp'.
  set (P := fun q : MobileReplayer =>
         forall h : nat, (paused <$> _videos q) !! h = Some true ->
                         (paused <$> _videos p) !! h = Some true).
  assert (HP : P (play p offsetMs)).
  { unfold play, playSegmentAtTime.
    refine (loadSegmentAtTime_preserves P true _ _ _ _ _ offsetMs KPlaySegmentAtTime _ _).
    - intros q i off Hq h0.
      destruct (loadSegment_show_frame q i off) as (_ & _ & Hf).
      rewrite (Hf bool paused) by done. apply Hq.
    - intros q t w Hq. exact Hq.
    - intros _ q [h0|] Hq; [|exact Hq]. intros h1. simpl.
      rewrite list_lookup_fmap. destruct (decide (h0 = h1)) as [->|Hne].
      + rewrite list_lookup_alter_eq. by destruct (_videos q !! h1).
      + rewrite list_lookup_alter_ne by done. rewrite <- list_lookup_fmap. apply Hq.
    - intros q e Hq. exact Hq.
    - done.
    - intros h0 H0. exact H0. }
  specialize (HP h). rewrite !list_lookup_fmap, Hv' in HP. simpl in HP.
  rewrite Hp' in HP. specialize (HP eq_refl).
  destruct (_videos p !! h) as [v|]; [|done]. simpl in HP. exists v. split; congruence.
Qed.

Lemma play_never_pauses_witness :
  exists v,
    _videos (construct [mkAttachment 1000 0 "a"; mkAttachment 1000 1500 "b"] 0) !! 1%nat
      = Some v /\ paused v = true.
Proof.
  apply (play_never_pauses
           (construct [mkAttachment 1000 0 "a"; mkAttachment 1000 1500 "b"] 0) 0 1
           (mkVideo "b" DisplayNone 0 1 true)); reflexivity.
Defined.

(** ** Pending notifications *)

(** X10. No call ever cancels a timer notification: after [play], [pause],
    [setConfig] or an [ended] event the notifications that were pending are
    still pending, in the same order, before any the call has added. *)
Theorem pending_never_removed (p : MobileReplayer) (e : Event) :
  match e with
  | ETick _ => True
  | _ => exists added, pending (_timer (step p e)) = pending (_timer p) ++ added
  end.
Proof.
  set (P := fun q : MobileReplayer =>
         exists added, pending (_timer q) = pending (_timer p) ++ added).
  assert (Hshow : forall q i off, P q -> P (loadSegment_show q i off).1).
  { intros q i off Hq. unfold P. by rewrite loadSegment_show_timer. }
  assert (Hwait : forall q t w,
            P q -> P (set_timer (timer_addNotificationAtTime (_timer q) t w) q)).
  { intros q t w [added Hq]. exists (added ++ [(t, w)]). simpl. by rewrite Hq, app_assoc. }
  assert (Hplay : true = true -> forall q video, P q -> P (playVideo q video)).
  { intros _ q video Hq. unfold P. by rewrite playVideo_timer. }
  assert (Hrej : forall q err, P q -> P (unhandledRejection err q)) by done.
  assert (H0 : forall q, pending (_timer q) = pending (_timer p) -> P q).
  { intros q Hq. exists []. by rewrite app_nil_r. }
  destruct e as [o|o|s|i|dt]; simpl; [| | | |done].
  - apply (loadSegmentAtTime_preserves P true); auto.
  - apply (loadSegmentAtTime_preserves P true); auto. apply H0.
    by destruct (getVideo p (_currentIndex p)).
  - apply H0. destruct s as [s|]; [|done]. unfold setConfig.
    by destruct (getVideo _ _).
  - unfold handleSegmentEnd. destruct (_ >=? _); [by apply H0|].
    apply (await_preserves P true); auto. apply (loadSegment_preserves P); auto.
Qed.

(** ** Calls of [onFinished] *)

Lemma step_onFinished (p : MobileReplayer) (e : Event) :
  _attachments (step p e) = _attachments p /\
  onFinishedCalls (step p e)
    = ((if finishes (length (_attachments p)) e then 1 else 0) + onFinishedCalls p)%nat.
Proof.
  destruct (finishes (length (_attachments p)) e) eqn:Hfin.
  - destruct e as [o|o|s|i|dt]; try discriminate. cbn [step finishes] in Hfin |- *.
    unfold handleSegmentEnd. by rewrite Hfin.
  - refine (step_preserved
              (fun q => _attachments q = _attachments p /\
                        onFinishedCalls q = (0 + onFinishedCalls p)%nat)
              _ _ _ _ _ _ p e Hfin _); try done.
    + intros q i off [Ha Hc].
      destruct (loadSegment_show_frame q i off) as ((Ha' & _ & _ & _ & _ & _ & Hc' & _) & _).
      split; congruence.
    + intros q [h|] Hq; done.
    + intros q s Hq. unfold setConfig. by destruct (getVideo _ _).
Qed.

(** X11. [onFinished] is called by nothing but an [ended] event that finds
    no next segment, and once by each: in every reachable state the number
    of calls is the number of such events so far. *)
Theorem onFinished_calls (attachments : list MobileAttachment) (start : Z)
    (events : list Event) :
  onFinishedCalls (run (construct attachments start) events)
    = finishing_events (length attachments) events.
Proof.
  assert (H0 : _attachments (construct attachments start) = attachments /\
               onFinishedCalls (construct attachments start) = 0%nat).
  { apply (construct_preserved
             (fun q => _attachments q = attachments /\ onFinishedCalls q = 0%nat));
      try done.
    intros q i off [Ha Hc].
    destruct (loadSegment_show_frame q i off) as ((Ha' & _ & _ & _ & _ & _ & Hc' & _) & _).
    split; congruence. }
  destruct H0 as [Ha Hc].
  replace (finishing_events (length attachments) events)
    with (finishing_events (length attachments) events
          + onFinishedCalls (construct attachments start))%nat by lia.
  clear Hc. revert Ha. generalize (construct attachments start).
  unfold run. induction events as [|e events IH]; intros p Ha; simpl; [done|].
  destruct (step_onFinished p e) as [Ha' Hc']. rewrite Ha in Ha', Hc'.
  rewrite (IH (step p e) Ha'), Hc'. lia.
Qed.

(** ** What never changes *)

Lemma src_createVideo (speed : Q) (l : list MobileAttachment) :
  src <$> map (createVideo speed) l = uri <$> l.
Proof. induction l as [|a l IH]; [done|]. simpl. by f_equal. Qed.

(** X12. The segment list, the origin and the track list are those given to
    the constructor in every reachable state, and there is always one handle
    per segment, each with its segment's source. *)
Theorem session_immutable (attachments : list MobileAttachment) (start : Z)
    (events : list Event) :
  let p := run (construct attachments start) events in
  _attachments p = attachments /\
  _startTimestamp p = start /\
  _trackList p = mkTrackList attachments /\
  src <$> _videos p = uri <$> attachments.
Proof.
  set (P := fun q : MobileReplayer =>
         _attachments q = attachments /\ _startTimestamp q = start /\
         _trackList q = mkTrackList attachments /\
         src <$> _videos q = uri <$> attachments).
  assert (Hshow : forall q i off, P q -> P (loadSegment_show q i off).1).
  { intros q i off (Ha & Hs & Ht & Hv).
    destruct (loadSegment_show_frame q i off) as ((Ha' & Hs' & Ht' & _) & _ & Hf).
    unfold P. rewrite (Hf _ src) by done. repeat split; congruence. }
  assert (Hvideo : forall q h f, (forall v, src (f v) = src v) -> P q -> P (with_video h f q)).
  { intros q h f Hf (Ha & Hs & Ht & Hv). unfold P. simpl.
    by rewrite fmap_alter_same. }
  cbv zeta. apply (run_from_preserved P); try done.
  - intros q [h|] Hq; [by apply Hvideo | done].
  - intros q h Hq. by apply Hvideo.
  - intros q s Hq. unfold setConfig. destruct (getVideo _ _); [by apply Hvideo | done].
  - apply (construct_preserved P); try done.
    unfold P. simpl. repeat split. apply src_createVideo.
Qed.

(** ** The active index *)

Lemma loadSegment_show_currentIndex (p : MobileReplayer) (index segmentOffsetMs : Z) :
  (_currentIndex (loadSegment_show p index segmentOffsetMs).1 = Some index /\
   0 <= index < Z.of_nat (length (_videos p))) \/
  _currentIndex (loadSegment_show p index segmentOffsetMs).1 = _currentIndex p.
Proof.
  unfold loadSegment_show.
  set (p1 := if index - 1 >=? 0 then hideVideo p (Some (index - 1)) else p).
  assert (H1 : _currentIndex p1 = _currentIndex p /\
               length (_videos p1) = length (_videos p)).
  { subst p1. destruct (index - 1 >=? 0); [|done].
    destruct (hideVideo_frame p (Some (index - 1))) as ((_&_&_&_&_&_&_&?) & ? & _). done. }
  destruct H1 as [Hc1 Hl1].
  destruct (hideVideo_frame p1 (_currentIndex p1)) as ((_&_&_&_&_&_&_&Hl2) & Hc2 & _).
  destruct (getVideo _ (Some index)) as [h|] eqn:Hg; simpl.
  - left. split; [done|].
    apply getVideo_Some in Hg as (i & [= <-] & Hi0 & -> & Hlt). lia.
  - right. congruence.
Qed.

(** X13. In every reachable state the active index, when there is one, is
    the index of a segment; and once a segment is active some segment stays
    active through every later event. *)
Theorem active_index_valid (attachments : list MobileAttachment) (start : Z)
    (events later : list Event) :
  match _currentIndex (run (construct attachments start) events) with
  | Some i => 0 <= i < Z.of_nat (length attachments)
  | None => True
  end /\
  (is_Some (_currentIndex (run (construct attachments start) events)) ->
   is_Some (_currentIndex (run (construct attachments start) (events ++ later)))).
Proof.
  split.
  - set (P := fun q : MobileReplayer =>
           length (_videos q) = length attachments /\
           forall i, _currentIndex q = Some i -> 0 <= i < Z.of_nat (length attachments)).
    assert (Hvideo : forall q h f, P q -> P (with_video h f q)).
    { intros q h f [Hl Hi]. split; [simpl; by rewrite length_alter | done]. }
    assert (Hshow : forall q i off, P q -> P (loadSegment_show q i off).1).
    { intros q i off [Hl Hi].
      destruct (loadSegment_show_frame q i off) as ((_&_&_&_&_&_&_&Hl') & _).
      split; [congruence|]. intros i' Hi'.
      destruct (loadSegment_show_currentIndex q i off) as [[Hc Hr]|Hc].
      - rewrite Hc in Hi'. injection Hi' as <-. lia.
      - apply Hi. congruence. }
    assert (HP : P (run (construct attachments start) events)).
    { apply (run_from_preserved P); try done.
      - intros q [h|] Hq; [by apply Hvideo | done].
      - intros q h Hq. by apply Hvideo.
      - intros q s Hq. unfold setConfig. destruct (getVideo _ _); [by apply Hvideo | done].
      - apply (construct_preserved P); try done.
        split; [apply length_map | done]. }
    destruct HP as [_ HP].
    destruct (_currentIndex (run (construct attachments start) events)); [by apply HP | done].
  - unfold run. rewrite foldl_app.
    apply (run_from_preserved (fun q => is_Some (_currentIndex q))); try done.
    + intros q i off Hq. by apply loadSegment_show_frame.
    + intros q [h|] Hq; done.
    + intros q s Hq. unfold setConfig. by destruct (getVideo _ _).
Qed.

(** ** Successive speeds *)

Lemma alter_alter_same {A} (f g : A -> A) (i : nat) (l : list A) :
  (forall x, f (g x) = f x) -> alter f i (alter g i l) = alter f i l.
Proof.
  intros Hfg. revert i. induction l as [|x l IH]; intros [|i]; simpl; [done..| |].
  - by rewrite Hfg.
  - f_equal. apply IH.
Qed.

(** X14. Of two successive [setConfig] calls with a speed, the second wins:
    the player is left as the second call alone would leave it. *)
Theorem setConfig_last_wins (p : MobileReplayer) (s1 s2 : Q) :
  setConfig (setConfig p (Some s1)) (Some s2) = setConfig p (Some s2).
Proof.
  assert (E : forall q s, setConfig q (Some s) =
    match getVideo q (_currentIndex q) with
    | Some h => with_video h (set_playbackRate s) (set_playbackSpeed s q)
    | None => set_playbackSpeed s q
    end) by reflexivity.
  rewrite (E p s1), (E p s2).
  destruct (getVideo p (_currentIndex p)) as [h|] eqn:Hg.
  - rewrite E.
    assert (getVideo (with_video h (set_playbackRate s1) (set_playbackSpeed s1 p))
              (_currentIndex (with_video h (set_playbackRate s1) (set_playbackSpeed s1 p)))
            = Some h) as ->.
    { apply getVideo_Some in Hg as (i & Hi & Hi0 & -> & Hlt).
      apply getVideo_Some. exists i. simpl. by rewrite length_alter. }
    unfold with_video, set_videos, set_playbackSpeed. simpl. f_equal.
    by apply alter_alter_same.
  - rewrite E.
    assert (getVideo (set_playbackSpeed s1 p) (_currentIndex (set_playbackSpeed s1 p))
            = None) as -> by exact Hg.
    done.
Qed.

(** ** Pausing, then resuming at the same offset *)

(** X15. [pause(t)] followed by [play(t)], for an offset that some segment
    contains: both calls resolve to the same segment and the same position
    within it. After the pause its handle is shown at that position; after
    the play it is shown at that position and playing at the current speed,
    with the timer running from [t]. *)
Theorem pause_then_play (p : MobileReplayer) (offsetMs : Z) (j : nat)
    (c : MobileAttachment) :
  wf_player p ->
  sortedByStart (_attachments p) = true -> nonOverlapping (_attachments p) = true ->
  nonNegDurations (_attachments p) = true ->
  _attachments p !! j = Some c -> contains c (_startTimestamp p + offsetMs) = true ->
  exists (r : nat) seg,
    _attachments p !! r = Some seg /\
    contains seg (_startTimestamp p + offsetMs) = true /\
    _currentIndex (pause p offsetMs) = Some (Z.of_nat r) /\
    (exists v, _videos (pause p offsetMs) !! r = Some v /\ display v = DisplayBlock /\
       currentTime v = (_startTimestamp p + offsetMs - timestamp seg) # 1000) /\
    shows_and_plays (play (pause p offsetMs) offsetMs) (Z.of_nat r)
      ((_startTimestamp p + offsetMs - timestamp seg) # 1000) /\
    time (_timer (play (pause p offsetMs) offsetMs)) = offsetMs /\
    running (_timer (play (pause p offsetMs) offsetMs)) = true.
Proof.
  intros Hwf Hs Hd Hl Hj Hin.
  destruct (findSegmentIndex_contained_full _ _ j c Hs Hd Hl Hj Hin)
    as (r & seg & Hfind & Hseg & Hc).
  exists r, seg. split; [done|]. split; [done|].
  apply lookup_lt_Some in Hseg as Hlt.
  (* the pause *)
  set (p1 := match getVideo p (_currentIndex p) with
             | Some currentVideo => with_video currentVideo (set_paused true) p
             | None => p
             end).
  set (p2 := set_timer (timer_stop (_timer p1) (Some offsetMs)) p1).
  assert (H2 : _attachments p2 = _attachments p /\ _startTimestamp p2 = _startTimestamp p /\
               wf_player p2).
  { subst p2 p1. destruct Hwf as [Hlen Htl].
    destruct (getVideo p (_currentIndex p)); repeat split; simpl;
      by rewrite ?length_alter. }
  destruct H2 as (Hatt2 & Hst2 & Hwf2).
  assert (Epause : pause p offsetMs
                   = (loadSegment_show p2 (Z.of_nat r)
                        (_startTimestamp p + offsetMs - timestamp seg)).1).
  { change (pause p offsetMs) with (loadSegmentAtTime p2 offsetMs KDrop).
    rewrite <- Hst2.
    apply (loadSegmentAtTime_exact p2 offsetMs KDrop r seg Hwf2);
      rewrite ?Hatt2, ?Hst2; done. }
  assert (Hrange2 : 0 <= Z.of_nat r < Z.of_nat (length (_videos p2))).
  { destruct Hwf2 as [-> _]. rewrite Hatt2. lia. }
  destruct (loadSegment_show_spec p2 (Z.of_nat r)
              (_startTimestamp p + offsetMs - timestamp seg) Hrange2)
    as (_ & Hss & Hci & _ & _ & v & Hv & Hdv & Htv).
  rewrite <- Epause, ?Nat2Z.id in *.
  split; [done|]. split; [eauto|].
  (* the play that follows *)
  set (q := pause p offsetMs) in *.
  pose proof (wf_player_same_session p2 q Hss Hwf2) as Hwfq.
  destruct Hss as (Hattq & Hstq & _ & _ & _ & _ & _ & Hlenq).
  set (q2 := set_timer (timer_start (_timer q) offsetMs) q).
  pose proof (wf_player_set_timer q (timer_start (_timer q) offsetMs) Hwfq) as Hwfq2.
  fold q2 in Hwfq2.
  assert (Eplay : play q offsetMs
                  = runK KPlaySegmentAtTime
                      (loadSegment_show q2 (Z.of_nat r)
                         (_startTimestamp p + offsetMs - timestamp seg)).1
                      (Some (Z.of_nat r))).
  { change (play q offsetMs) with (loadSegmentAtTime q2 offsetMs KPlaySegmentAtTime).
    replace (_startTimestamp p) with (_startTimestamp q2)
      by (change (_startTimestamp q2) with (_startTimestamp q); congruence).
    apply (loadSegmentAtTime_exact q2 offsetMs KPlaySegmentAtTime r seg Hwfq2);
      change (_attachments q2) with (_attachments q);
      change (_startTimestamp q2) with (_startTimestamp q);
      rewrite ?Hattq, ?Hatt2, ?Hstq, ?Hst2; done. }
  assert (Hrangeq : 0 <= Z.of_nat r < Z.of_nat (length (_videos q2))).
  { change (_videos q2) with (_videos q). lia. }
  pose proof (loadSegment_show_then_play q2 (Z.of_nat r)
                (_startTimestamp p + offsetMs - timestamp seg) Hrangeq) as Hplay.
  destruct (loadSegment_show_spec q2 (Z.of_nat r)
              (_startTimestamp p + offsetMs - timestamp seg) Hrangeq) as (Hr & _).
  rewrite Hr in Hplay.
  change (runK KPlaySegmentAtIndex) with (runK KPlaySegmentAtTime) in Hplay.
  rewrite <- Eplay in Hplay. split; [done|].
  assert (Htimer : _timer (play q offsetMs) = timer_start (_timer q) offsetMs).
  { rewrite Eplay. cbn [runK]. by rewrite playVideo_timer, loadSegment_show_timer. }
  by rewrite Htimer.
Qed.

Lemma pause_then_play_witness :
  let p := run (construct [mkAttachment 1000 0 "a"; mkAttachment 1000 1500 "b"] 0)
             [EPlay 0; ETick 400] in
  shows_and_plays (play (pause p 1700) 1700) 1 (200 # 1000).
Proof.
  intros p.
  destruct (pause_then_play p 1700 1 (mkAttachment 1000 1500 "b"))
    as (r & seg & Hseg & Hc & _ & _ & Hplay & _).
  - split; reflexivity.
  - reflexivity.
  - reflexivity.
  - reflexivity.
  - reflexivity.
  - reflexivity.
  - destruct r as [|[|r]]; simpl in Hseg; try discriminate;
      injection Hseg as <-; [discriminate|exact Hplay].
Defined.
